(** * python-bio-utils: coordinate mapping between reference, query and signal

    A shallow embedding of the functions of [bio-utils/alignment.py],
    [bio-utils/fast5.py] and [bio-utils/utils.py] that carry the
    coordinate-mapping logic, together with the properties that the
    specification states about them.

    Python integers are unbounded and are modelled by [Z].  NumPy arrays
    are lists; an array obtained from [np.empty] or [np.ndarray] holds
    cells that were never written, which are modelled by [None].  A Python
    call either returns a value or raises an exception: [outcome]. *)

From Stdlib Require Import ZArith List Lia Floats Ascii String.
From Stdlib Require Import Sorted.
From stdpp Require Import gmap strings list.

Local Open Scope Z_scope.

(* A decimal float literal stands for the nearest binary64 value, as in Python. *)
Set Warnings "-inexact-float,-clear-no-such-hyp".

(** ** Python calls: a value or an exception *)

Inductive exn : Type :=
| TypeError (msg : string)
| IndexError
| ValueError
| OverflowError.

Inductive outcome (A : Type) : Type :=
| Returns (a : A)
| Raises (e : exn).

Arguments Returns {A} a.
Arguments Raises {A} e.

#[global] Instance outcome_ret : MRet outcome := fun _ a => Returns a.

#[global] Instance outcome_bind : MBind outcome := fun _ _ f m =>
  match m with
  | Returns a => f a
  | Raises e => Raises e
  end.

#[global] Instance outcome_fmap : FMap outcome := fun _ _ f m =>
  match m with
  | Returns a => Returns (f a)
  | Raises e => Raises e
  end.

(** The call raised some exception. *)
Definition fails {A} (o : outcome A) : Prop := exists e, o = Raises e.

(** [for x in xs: body] over a state that the body may abort. *)
Fixpoint for_each {X S : Type} (body : S -> X -> outcome S) (xs : list X) (s : S)
  : outcome S :=
  match xs with
  | [] => Returns s
  | x :: xs' => s' ← body s x; for_each body xs' s'
  end.

(** [range(l)]: [0, 1, ..., l-1], empty when [l <= 0]. *)
Definition range (l : Z) : list Z := Z.of_nat <$> seq 0 (Z.to_nat l).

(** ** alignment.py *)

Module alignment.

(** The fields of [mappy.Alignment] that [reference_to_query] reads.
    [cigar] is a list of [(length, op)] pairs. *)
Record Alignment : Type := {
  r_st : Z;
  r_en : Z;
  q_st : Z;
  strand : Z;
  cigar : list (Z * Z)
}.

(** What a cell of dtype [np.uint32] keeps of an integer stored in it: the
    value modulo 2^32, as the NumPy 1.x of the code's time converts a Python
    integer.  The coordinates of an alignment are 32-bit and never wrap. *)
Definition uint32 (v : Z) : Z := v mod 2 ^ 32.

(** The local variables of [reference_to_query] while it runs.  [written]
    is a ghost field: the indices, as the code computes them, of the
    assignments into [ref_to_query] done so far, oldest first. *)
Record state : Type := {
  ref_to_query : list (option Z);
  rpos : Z;
  qpos : Z;
  written : list Z
}.

(** [np.empty((n,), dtype=np.uint32)]: [n] cells, none written. *)
Definition np_empty (n : Z) : outcome (list (option Z)) :=
  if n <? 0 then Raises ValueError else Returns (replicate (Z.to_nat n) None).

(** [ref_to_query[idx] = v] on a one-dimensional array: an index in
    [-n, 0) counts from the end, an index outside [-n, n) raises. *)
Definition setitem (st : state) (idx v : Z) : outcome state :=
  let n := Z.of_nat (length (ref_to_query st)) in
  if (0 <=? idx) && (idx <? n) then
    Returns {| ref_to_query := <[Z.to_nat idx := Some (uint32 v)]> (ref_to_query st);
               rpos := rpos st; qpos := qpos st;
               written := written st ++ [idx] |}
  else if (- n <=? idx) && (idx <? 0) then
    Returns {| ref_to_query := <[Z.to_nat (idx + n) := Some (uint32 v)]> (ref_to_query st);
               rpos := rpos st; qpos := qpos st;
               written := written st ++ [idx] |}
  else Raises IndexError.

Definition is_match (op : Z) : bool := (op =? 0) || (op =? 7) || (op =? 8).
Definition is_insertion (op : Z) : bool := op =? 1.
Definition is_deletion (op : Z) : bool := op =? 2.

(** The body of [for l, op in cigar]. *)
Definition cigar_step (st : state) (lop : Z * Z) : outcome state :=
  let '(l, op) := lop in
  if is_match op then
    st' ← for_each (fun s i => setitem s (rpos st + i) (qpos st + i)) (range l) st;
    Returns {| ref_to_query := ref_to_query st';
               rpos := rpos st + l; qpos := qpos st + l;
               written := written st' |}
  else if is_insertion op then
    Returns {| ref_to_query := ref_to_query st;
               rpos := rpos st; qpos := qpos st + l;
               written := written st |}
  else if is_deletion op then
    st' ← for_each (fun s i => setitem s (rpos st + i) (qpos st)) (range l) st;
    Returns {| ref_to_query := ref_to_query st';
               rpos := rpos st + l; qpos := qpos st;
               written := written st' |}
  else Raises (TypeError "Invalid cigar operation.").

(** The order in which the operations are consumed. *)
Definition cigar_order (a : Alignment) : list (Z * Z) :=
  if strand a =? 1 then cigar a else rev (cigar a).

(** [reference_to_query] up to its [return], with the final state. *)
Definition run_reference_to_query (a : Alignment) : outcome state :=
  let ref_len := r_en a - r_st a in
  tbl ← np_empty (ref_len + 1);
  st ← for_each cigar_step (cigar_order a)
         {| ref_to_query := tbl; rpos := 0; qpos := q_st a; written := [] |};
  setitem st (rpos st) (qpos st).

Definition reference_to_query (a : Alignment) : outcome (list (option Z)) :=
  ref_to_query <$> run_reference_to_query a.

(** *** Vocabulary of the properties *)

(** Reference bases consumed by a list of operations. *)
Fixpoint ref_consumed (ops : list (Z * Z)) : Z :=
  match ops with
  | [] => 0
  | (l, op) :: ops' =>
      (if is_match op || is_deletion op then l else 0) + ref_consumed ops'
  end.

(** Query bases consumed by a list of operations. *)
Fixpoint query_consumed (ops : list (Z * Z)) : Z :=
  match ops with
  | [] => 0
  | (l, op) :: ops' =>
      (if is_match op || is_insertion op then l else 0) + query_consumed ops'
  end.

(** Total length of the insertions that open a list of operations. *)
Fixpoint leading_insertion (ops : list (Z * Z)) : Z :=
  match ops with
  | (l, op) :: ops' => if is_insertion op then l + leading_insertion ops' else 0
  | [] => 0
  end.

Definition supported (op : Z) : bool :=
  is_match op || is_insertion op || is_deletion op.

(** Query advance of one reference base. *)
Definition advance (op : Z) : Z := if is_match op then 1 else 0.

(** The table as the docstring describes it: the query index at which each
    reference base starts, without the closing exclusive end. *)
Fixpoint starts (ops : list (Z * Z)) (q : Z) : list Z :=
  match ops with
  | [] => []
  | (l, op) :: ops' =>
      if is_match op then ((fun i => q + i) <$> range l) ++ starts ops' (q + l)
      else if is_insertion op then starts ops' (q + l)
      else ((fun _ => q) <$> range l) ++ starts ops' q
  end.

(** The table of the docstring, closed by the exclusive end. *)
Definition table (ops : list (Z * Z)) (q : Z) : list Z :=
  starts ops q ++ [q + query_consumed ops].

(** An operation that the loop accepts, of a length that [range] walks. *)
Definition well_formed_op (lop : Z * Z) : Prop :=
  0 <= lop.1 /\ supported lop.2 = true.

(** The same with a positive length, as an aligner reports operations. *)
Definition positive_op (lop : Z * Z) : Prop :=
  0 < lop.1 /\ supported lop.2 = true.

End alignment.

(** ** Facts about [reference_to_query] *)

Module alignment_facts.
Import alignment.

Section Execution.

(** One assignment at the first cell that was not written yet. *)
Lemma setitem_fill (st : state) (ws : list Z) (k : nat) (idx v : Z) :
  ref_to_query st = (Some <$> ws) ++ replicate (S k) None ->
  idx = Z.of_nat (length ws) ->
  setitem st idx v =
    Returns {| ref_to_query := (Some <$> (ws ++ [uint32 v])) ++ replicate k None;
               rpos := rpos st; qpos := qpos st;
               written := written st ++ [idx] |}.
Proof.
  intros Htbl ->. unfold setitem. rewrite Htbl.
  rewrite length_app, length_fmap, length_replicate.
  replace ((0 <=? Z.of_nat (length ws)) &&
           (Z.of_nat (length ws) <? Z.of_nat (length ws + S k)))
    with true
    by (symmetry; apply andb_true_iff; split;
        [apply Z.leb_le | apply Z.ltb_lt]; lia).
  rewrite Nat2Z.id.
  replace (length ws) with (length (Some <$> ws) + 0)%nat at 1
    by (rewrite length_fmap; lia).
  rewrite insert_app_r. simpl.
  rewrite fmap_app. simpl. rewrite <- app_assoc. reflexivity.
Qed.

(** The inner loops: [l] consecutive cells, from the first free one. *)
Lemma fill_loop (r : Z) (f : Z -> Z) (m : nat) :
  forall (j : nat) (st : state) (ws : list Z) (k : nat),
    ref_to_query st = (Some <$> ws) ++ replicate (m + k) None ->
    Z.of_nat (length ws) = r + Z.of_nat j ->
    for_each (fun s i => setitem s (r + i) (f i)) (Z.of_nat <$> seq j m) st =
      Returns {| ref_to_query :=
                   (Some <$> (ws ++ ((fun i => uint32 (f (Z.of_nat i))) <$> seq j m)))
                     ++ replicate k None;
                 rpos := rpos st; qpos := qpos st;
                 written := written st ++ ((fun i => r + Z.of_nat i) <$> seq j m) |}.
Proof.
  induction m as [|m IH]; intros j st ws k Htbl Hlen.
  - simpl. rewrite !app_nil_r. destruct st; simpl in *. now subst.
  - simpl.
    rewrite (setitem_fill st ws (m + k) _ (f (Z.of_nat j)) Htbl) by lia.
    simpl. erewrite IH; simpl; [| reflexivity | rewrite length_app; simpl; lia].
    rewrite <- !app_assoc. reflexivity.
Qed.

Lemma insertion_not_deletion (op : Z) :
  is_insertion op = true -> is_deletion op = false.
Proof. unfold is_insertion, is_deletion. intros H%Z.eqb_eq. now subst. Qed.

Lemma insertion_not_match (op : Z) :
  is_insertion op = true -> is_match op = false.
Proof. unfold is_insertion, is_match. intros H%Z.eqb_eq. now subst. Qed.

Lemma deletion_not_match (op : Z) :
  is_deletion op = true -> is_match op = false.
Proof. unfold is_deletion, is_match. intros H%Z.eqb_eq. now subst. Qed.

Lemma insertion_match_false (op : Z) :
  is_match op = true -> is_insertion op = false.
Proof.
  intros Hm. destruct (is_insertion op) eqn:Hi; [|reflexivity].
  now rewrite (insertion_not_match op Hi) in Hm.
Qed.

Lemma deletion_not_insertion (op : Z) :
  is_deletion op = true -> is_insertion op = false.
Proof. unfold is_insertion, is_deletion. intros H%Z.eqb_eq. now subst. Qed.

Lemma ref_consumed_nonneg (ops : list (Z * Z)) :
  Forall well_formed_op ops -> 0 <= ref_consumed ops.
Proof.
  induction 1 as [|[l op] ops [Hl _] _ IH]; simpl in *; [lia|].
  destruct (is_match op || is_deletion op); lia.
Qed.

Lemma written_shift (r : Z) (b n : nat) :
  r = Z.of_nat b ->
  (fun i => r + Z.of_nat i) <$> seq 0 n = Z.of_nat <$> seq b n.
Proof.
  intros ->. replace (seq b n) with (seq (b + 0) n) by (f_equal; lia).
  rewrite <- fmap_add_seq.
  rewrite <- list_fmap_compose. apply list_fmap_ext. intros _ i _. simpl. lia.
Qed.

(** The whole loop over the operations, when the table has room for them. *)
Lemma cigar_loop (ops : list (Z * Z)) :
  forall (st : state) (ws : list Z) (k : nat),
    Forall well_formed_op ops ->
    ref_to_query st =
      (Some <$> ws) ++ replicate (Z.to_nat (ref_consumed ops) + k) None ->
    Z.of_nat (length ws) = rpos st ->
    for_each cigar_step ops st =
      Returns {| ref_to_query :=
                   (Some <$> (ws ++ (uint32 <$> starts ops (qpos st))))
                     ++ replicate k None;
                 rpos := rpos st + ref_consumed ops;
                 qpos := qpos st + query_consumed ops;
                 written := written st ++
                   (Z.of_nat <$> seq (length ws) (Z.to_nat (ref_consumed ops))) |}.
Proof.
  induction ops as [|[l op] ops IH]; intros st ws k Hwf Htbl Hlen.
  - simpl in *. rewrite !app_nil_r, !Z.add_0_r. destruct st; simpl in *. now subst.
  - inversion Hwf as [|? ? [Hl Hop] Hwf']; subst. simpl in Hl, Hop.
    pose proof (ref_consumed_nonneg ops Hwf') as Hnn.
    unfold supported in Hop. simpl in Htbl |- *.
    destruct (is_match op) eqn:Hm; simpl in Htbl |- *.
    + rewrite Z2Nat.inj_add, <- Nat.add_assoc in Htbl by lia.
      unfold range.
      rewrite (fill_loop (rpos st) (fun i => qpos st + i) (Z.to_nat l) 0 st ws _ Htbl)
        by (simpl; lia).
      simpl. erewrite IH; simpl; [| assumption | reflexivity
        | rewrite length_app, length_fmap, length_seq; lia].
      rewrite Z2Nat.inj_add, seq_app, !fmap_app by lia.
      rewrite (written_shift (rpos st) (length ws)) by lia.
      rewrite length_app, length_fmap, length_seq.
      rewrite <- !list_fmap_compose, <- !app_assoc.
      f_equal. f_equal; first [lia | reflexivity].
    + destruct (is_insertion op) eqn:Hi; simpl in Htbl |- *.
      * rewrite (insertion_not_deletion op Hi) in Htbl |- *. simpl in Htbl |- *.
        erewrite IH; simpl; [| assumption | eassumption | assumption].
        do 2 f_equal; lia.
      * destruct (is_deletion op) eqn:Hd; [|discriminate]. simpl in Htbl |- *.
        rewrite Z2Nat.inj_add, <- Nat.add_assoc in Htbl by lia.
        unfold range.
        rewrite (fill_loop (rpos st) (fun _ => qpos st) (Z.to_nat l) 0 st ws _ Htbl)
          by (simpl; lia).
        simpl. erewrite IH; simpl; [| assumption | reflexivity
          | rewrite length_app, length_fmap, length_seq; lia].
        rewrite Z2Nat.inj_add, seq_app, !fmap_app by lia.
        rewrite (written_shift (rpos st) (length ws)) by lia.
        rewrite length_app, length_fmap, length_seq.
        rewrite <- !list_fmap_compose, <- !app_assoc.
        f_equal. f_equal; first [lia | reflexivity].
Qed.

Lemma ref_consumed_app (xs ys : list (Z * Z)) :
  ref_consumed (xs ++ ys) = ref_consumed xs + ref_consumed ys.
Proof. induction xs as [|[l op] xs IH]; simpl; lia. Qed.

Lemma query_consumed_app (xs ys : list (Z * Z)) :
  query_consumed (xs ++ ys) = query_consumed xs + query_consumed ys.
Proof. induction xs as [|[l op] xs IH]; simpl; lia. Qed.

Lemma ref_consumed_rev (xs : list (Z * Z)) :
  ref_consumed (rev xs) = ref_consumed xs.
Proof.
  induction xs as [|[l op] xs IH]; simpl; [reflexivity|].
  rewrite ref_consumed_app, IH. simpl. lia.
Qed.

Lemma ref_consumed_order (a : Alignment) :
  ref_consumed (cigar_order a) = ref_consumed (cigar a).
Proof.
  unfold cigar_order. destruct (strand a =? 1); [reflexivity|].
  apply ref_consumed_rev.
Qed.

Lemma well_formed_order (a : Alignment) :
  Forall well_formed_op (cigar a) -> Forall well_formed_op (cigar_order a).
Proof.
  unfold cigar_order. destruct (strand a =? 1); [tauto|].
  intros H. rewrite rev_alt. now apply Forall_reverse.
Qed.

Lemma length_starts (ops : list (Z * Z)) :
  forall q, Forall well_formed_op ops ->
    length (starts ops q) = Z.to_nat (ref_consumed ops).
Proof.
  induction ops as [|[l op] ops IH]; intros q Hwf; [reflexivity|].
  inversion Hwf as [|? ? [Hl Hop] Hwf']; subst. simpl in Hl.
  pose proof (ref_consumed_nonneg ops Hwf') as Hnn. simpl.
  destruct (is_match op) eqn:Hm; simpl.
  - unfold range.
    rewrite length_app, !length_fmap, length_seq, IH, Z2Nat.inj_add by (assumption || lia).
    reflexivity.
  - destruct (is_insertion op) eqn:Hi.
    + rewrite (insertion_not_deletion op Hi). simpl. now apply IH.
    + unfold supported in Hop. simpl in Hop. rewrite Hm, Hi in Hop. simpl in Hop.
      rewrite Hop. unfold range.
      rewrite length_app, !length_fmap, length_seq, IH, Z2Nat.inj_add by (assumption || lia).
      reflexivity.
Qed.

(** What a run does when the operations are supported, of non-negative
    length, and consume exactly the declared reference span. *)
Lemma run_in_span (a : Alignment) :
  Forall well_formed_op (cigar a) ->
  ref_consumed (cigar a) = r_en a - r_st a ->
  run_reference_to_query a =
    Returns {| ref_to_query :=
                 Some <$> (uint32 <$> (starts (cigar_order a) (q_st a)
                                        ++ [q_st a + query_consumed (cigar_order a)]));
               rpos := r_en a - r_st a;
               qpos := q_st a + query_consumed (cigar_order a);
               written := range (r_en a - r_st a + 1) |}.
Proof.
  intros Hwf Hspan.
  pose proof (well_formed_order a Hwf) as Hwf'.
  pose proof (ref_consumed_nonneg _ Hwf') as Hnn.
  rewrite <- ref_consumed_order in Hspan.
  unfold run_reference_to_query, np_empty.
  destruct (Z.ltb_spec (r_en a - r_st a + 1) 0) as [Hneg|_]; [lia|].
  simpl.
  erewrite (cigar_loop (cigar_order a) _ [] 1 Hwf'); simpl;
    [| rewrite Hspan; f_equal; lia | reflexivity].
  rewrite Z.add_0_l.
  assert (Hlen : Z.of_nat (length (uint32 <$> starts (cigar_order a) (q_st a)))
                 = ref_consumed (cigar_order a))
    by (rewrite length_fmap, length_starts, Z2Nat.id by (assumption || lia);
        reflexivity).
  erewrite (setitem_fill _ (uint32 <$> starts (cigar_order a) (q_st a)) 0);
    simpl; [| reflexivity | now rewrite Hlen].
  rewrite Hspan.
  rewrite app_nil_r, fmap_app. simpl.
  unfold range. rewrite Z2Nat.inj_add, Nat.add_1_r, seq_S, fmap_app by lia.
  rewrite !fmap_app. simpl. rewrite Z2Nat.id by lia. reflexivity.
Qed.

End Execution.

Section Table.

Lemma positive_well_formed (ops : list (Z * Z)) :
  Forall positive_op ops -> Forall well_formed_op ops.
Proof.
  intros H. eapply Forall_impl; [exact H|].
  intros [l op] [Hl Hop]. split; simpl in *; [lia | assumption].
Qed.

Lemma query_consumed_nonneg (ops : list (Z * Z)) :
  Forall well_formed_op ops -> 0 <= query_consumed ops.
Proof.
  induction 1 as [|[l op] ops [Hl _] _ IH]; simpl in *; [lia|].
  destruct (is_match op || is_insertion op); lia.
Qed.

Lemma leading_insertion_nonneg (ops : list (Z * Z)) :
  Forall well_formed_op ops -> 0 <= leading_insertion ops.
Proof.
  induction 1 as [|[l op] ops [Hl _] _ IH]; simpl in *; [lia|].
  destruct (is_insertion op); lia.
Qed.

Lemma lookup_range (l k : Z) :
  0 <= k < l -> range l !! Z.to_nat k = Some k.
Proof.
  intros Hk. unfold range. rewrite list_lookup_fmap, lookup_seq_lt by lia.
  simpl. f_equal. lia.
Qed.

Lemma Forall_range (l : Z) : Forall (fun i => 0 <= i < l) (range l).
Proof.
  unfold range. apply Forall_fmap, Forall_forall. intros i Hi.
  apply elem_of_seq in Hi. simpl. lia.
Qed.

Lemma length_range (l : Z) : length (range l) = Z.to_nat l.
Proof. unfold range. now rewrite length_fmap, length_seq. Qed.

Lemma starts_app (xs ys : list (Z * Z)) :
  forall q, starts (xs ++ ys) q = starts xs q ++ starts ys (q + query_consumed xs).
Proof.
  induction xs as [|[l op] xs IH]; intros q; simpl.
  - now rewrite Z.add_0_r.
  - destruct (is_match op) eqn:Hm; simpl.
    + rewrite IH, <- app_assoc. do 3 f_equal. lia.
    + destruct (is_insertion op) eqn:Hi.
      * rewrite IH. do 2 f_equal. lia.
      * rewrite IH, <- app_assoc. do 3 f_equal; lia.
Qed.

Lemma starts_bounds (ops : list (Z * Z)) :
  forall q, Forall well_formed_op ops ->
    Forall (fun x => q <= x <= q + query_consumed ops) (starts ops q).
Proof.
  induction ops as [|[l op] ops IH]; intros q Hwf; [constructor|].
  inversion Hwf as [|? ? [Hl Hop] Hwf']; subst. simpl in Hl.
  pose proof (query_consumed_nonneg ops Hwf') as Hnn. simpl.
  destruct (is_match op) eqn:Hm; simpl.
  - apply Forall_app. split.
    + apply Forall_fmap. eapply Forall_impl; [apply Forall_range|].
      simpl. intros i Hi. lia.
    + eapply Forall_impl; [apply (IH (q + l) Hwf')|]. simpl. intros x Hx. lia.
  - destruct (is_insertion op) eqn:Hi.
    + eapply Forall_impl; [apply (IH (q + l) Hwf')|]. simpl. intros x Hx. lia.
    + apply Forall_app. split.
      * apply Forall_fmap, Forall_forall. intros i _. simpl. lia.
      * eapply Forall_impl; [apply (IH q Hwf')|]. simpl. intros x Hx. lia.
Qed.

(** Inside the 32 bits of a cell nothing is lost. *)
Lemma uint32_table (ops : list (Z * Z)) (q : Z) :
  Forall well_formed_op ops -> 0 <= q -> q + query_consumed ops < 2 ^ 32 ->
  uint32 <$> table ops q = table ops q.
Proof.
  intros Hwf Hq Hfit. pose proof (query_consumed_nonneg ops Hwf) as Hnn.
  rewrite <- (list_fmap_id (table ops q)) at 2.
  apply Forall_fmap_ext. unfold table. apply Forall_app. split.
  - eapply Forall_impl; [apply (starts_bounds ops q Hwf)|].
    simpl. intros x Hx. unfold uint32. apply Z.mod_small. lia.
  - constructor; [|constructor]. unfold uint32. simpl. apply Z.mod_small. lia.
Qed.

Lemma length_table (ops : list (Z * Z)) (q : Z) :
  Forall well_formed_op ops ->
  length (table ops q) = Z.to_nat (ref_consumed ops + 1).
Proof.
  intros Hwf. pose proof (ref_consumed_nonneg ops Hwf).
  unfold table. rewrite length_app, length_starts by assumption. simpl. lia.
Qed.

(** The first entry of a table whose operations have positive lengths. *)
Lemma table_head (ops : list (Z * Z)) :
  forall q, Forall positive_op ops ->
    table ops q !! 0%nat = Some (q + leading_insertion ops).
Proof.
  induction ops as [|[l op] ops IH]; intros q Hpos; unfold table; simpl.
  - reflexivity.
  - inversion Hpos as [|? ? [Hl Hop] Hpos']; subst. simpl in Hl, Hop.
    destruct (is_match op) eqn:Hm; simpl.
    + rewrite (insertion_match_false op Hm).
      rewrite <- app_assoc, lookup_app_l by (rewrite length_fmap, length_range; lia).
      rewrite list_lookup_fmap. change 0%nat with (Z.to_nat 0).
      rewrite (lookup_range l 0) by lia. simpl. f_equal; lia.
    + destruct (is_insertion op) eqn:Hi.
      * specialize (IH (q + l) Hpos'). unfold table in IH.
        rewrite !Z.add_assoc. exact IH.
      * rewrite <- app_assoc, lookup_app_l by (rewrite length_fmap, length_range; lia).
        rewrite list_lookup_fmap. change 0%nat with (Z.to_nat 0).
      rewrite (lookup_range l 0) by lia. simpl. f_equal; lia.
Qed.

Lemma table_split (pre post : list (Z * Z)) (q : Z) :
  table (pre ++ post) q = starts pre q ++ table post (q + query_consumed pre).
Proof.
  unfold table. rewrite starts_app, query_consumed_app, <- app_assoc.
  do 3 f_equal. lia.
Qed.

(** The entry of a reference base, found through the operation that
    consumes it. *)
Lemma table_lookup_inside (pre post : list (Z * Z)) (l op k q : Z) :
  Forall well_formed_op pre ->
  is_match op || is_deletion op = true ->
  0 <= k < l ->
  table (pre ++ (l, op) :: post) q !! Z.to_nat (ref_consumed pre + k) =
    Some (q + query_consumed pre + advance op * k).
Proof.
  intros Hpre Hop Hk. pose proof (ref_consumed_nonneg pre Hpre) as Hnn.
  rewrite table_split, lookup_app_r by (rewrite length_starts by assumption; lia).
  rewrite length_starts by assumption.
  replace (Z.to_nat (ref_consumed pre + k) - Z.to_nat (ref_consumed pre))%nat
    with (Z.to_nat k) by lia.
  unfold table, advance. simpl. destruct (is_match op) eqn:Hm; simpl in *.
  - rewrite <- app_assoc, lookup_app_l by (rewrite length_fmap, length_range; lia).
    rewrite list_lookup_fmap, lookup_range by lia. simpl. f_equal. lia.
  - rewrite (deletion_not_insertion op Hop).
    rewrite <- app_assoc, lookup_app_l by (rewrite length_fmap, length_range; lia).
    rewrite list_lookup_fmap, lookup_range by lia. simpl. f_equal. lia.
Qed.

(** The entry after it: the next base of the same operation, or the first
    entry that follows the operation, which the insertions met on the way
    have pushed forward. *)
Lemma table_lookup_next (pre post : list (Z * Z)) (l op k q : Z) :
  Forall well_formed_op pre ->
  Forall positive_op post ->
  is_match op || is_deletion op = true ->
  0 <= k < l ->
  table (pre ++ (l, op) :: post) q !! Z.to_nat (ref_consumed pre + k + 1) =
    Some (q + query_consumed pre + advance op * (k + 1)
          + (if k + 1 =? l then leading_insertion post else 0)).
Proof.
  intros Hpre Hpost Hop Hk. pose proof (ref_consumed_nonneg pre Hpre) as Hnn.
  destruct (Z.eqb_spec (k + 1) l) as [Heq|Hne].
  - assert (Hwf : Forall well_formed_op (pre ++ [(l, op)])).
    { apply Forall_app. split; [assumption|]. constructor; [|constructor].
      split; simpl; [lia|]. unfold supported.
      destruct (is_match op); simpl in *; [reflexivity|].
      rewrite Hop. now destruct (is_insertion op). }
    replace (pre ++ (l, op) :: post) with ((pre ++ [(l, op)]) ++ post)
      by (now rewrite <- app_assoc).
    rewrite table_split.
    rewrite lookup_app_r;
      rewrite length_starts, ref_consumed_app by assumption; simpl;
      rewrite Hop; [|lia].
    replace (Z.to_nat (ref_consumed pre + k + 1)
             - Z.to_nat (ref_consumed pre + (l + 0)))%nat with 0%nat by lia.
    rewrite table_head by assumption. f_equal.
    rewrite query_consumed_app. unfold advance. simpl.
    destruct (is_match op) eqn:Hm; simpl in *; [lia|].
    rewrite (deletion_not_insertion op Hop). lia.
  - replace (ref_consumed pre + k + 1) with (ref_consumed pre + (k + 1)) by lia.
    rewrite table_lookup_inside by (assumption || lia). f_equal. lia.
Qed.

(** Every reference base belongs to one operation of the list. *)
Lemma reference_base_split (ops : list (Z * Z)) :
  forall i, Forall well_formed_op ops -> 0 <= i < ref_consumed ops ->
    exists pre l op post k,
      ops = pre ++ (l, op) :: post /\
      is_match op || is_deletion op = true /\
      0 <= k < l /\ i = ref_consumed pre + k.
Proof.
  induction ops as [|[l op] ops IH]; intros i Hwf Hi; simpl in Hi; [lia|].
  inversion Hwf as [|? ? [Hl Hop] Hwf']; subst. simpl in Hl.
  destruct (is_match op || is_deletion op) eqn:Hc.
  - destruct (Z.ltb_spec i l) as [Hlt|Hge].
    + exists [], l, op, ops, i. simpl. repeat split; (assumption || lia).
    + destruct (IH (i - l) Hwf' ltac:(lia)) as (pre & l' & op' & post & k & -> & Hc' & Hk & Hik).
      exists ((l, op) :: pre), l', op', post, k. simpl. rewrite Hc.
      repeat split; (assumption || lia).
  - destruct (IH i Hwf' ltac:(lia)) as (pre & l' & op' & post & k & -> & Hc' & Hk & Hik).
    exists ((l, op) :: pre), l', op', post, k. simpl. rewrite Hc.
    repeat split; (assumption || lia).
Qed.

End Table.

Section Errors.

Lemma for_each_app {X S : Type} (body : S -> X -> outcome S) (xs ys : list X) :
  forall s, for_each body (xs ++ ys) s = for_each body xs s ≫= for_each body ys.
Proof.
  induction xs as [|x xs IH]; intros s; simpl; [reflexivity|].
  destruct (body s x) as [s'|e]; simpl; [apply IH | reflexivity].
Qed.

Lemma cigar_step_unsupported (st : state) (l op : Z) :
  supported op = false ->
  cigar_step st (l, op) = Raises (TypeError "Invalid cigar operation.").
Proof.
  unfold supported, cigar_step. intros H.
  destruct (is_match op), (is_insertion op), (is_deletion op);
    simpl in H; try discriminate. reflexivity.
Qed.

Lemma cigar_loop_unsupported (ops : list (Z * Z)) :
  forall st, Exists (fun lop => supported lop.2 = false) ops ->
    fails (for_each cigar_step ops st).
Proof.
  induction ops as [|[l op] ops IH]; intros st Hex;
    inversion Hex as [? ? Hbad|? ? Hbad]; subst; cbn [for_each].
  - rewrite cigar_step_unsupported by assumption. now eexists.
  - destruct (cigar_step st (l, op)) as [st'|e]; [now apply IH | now eexists].
Qed.

(** What a run does when the operations leave cells of the table free. *)
Lemma run_below_span (a : Alignment) :
  Forall well_formed_op (cigar a) ->
  ref_consumed (cigar a) <= r_en a - r_st a ->
  reference_to_query a =
    Returns ((Some <$> (uint32 <$> table (cigar_order a) (q_st a)))
             ++ replicate (Z.to_nat (r_en a - r_st a - ref_consumed (cigar a))) None).
Proof.
  intros Hwf Hspan.
  pose proof (well_formed_order a Hwf) as Hwf'.
  pose proof (ref_consumed_nonneg _ Hwf') as Hnn.
  rewrite <- ref_consumed_order in Hspan |- *.
  unfold reference_to_query, run_reference_to_query, np_empty.
  destruct (Z.ltb_spec (r_en a - r_st a + 1) 0) as [Hneg|_]; [lia|].
  cbn [mbind outcome_bind].
  erewrite (cigar_loop (cigar_order a) _ []
              (S (Z.to_nat (r_en a - r_st a - ref_consumed (cigar_order a)))) Hwf');
    [| simpl; f_equal; lia | reflexivity].
  cbn [mbind outcome_bind].
  erewrite (setitem_fill _ ([] ++ (uint32 <$> starts (cigar_order a) (q_st a))));
    [| reflexivity
     | cbn [rpos app]; rewrite length_fmap, length_starts by assumption; lia].
  cbn [fmap outcome_fmap ref_to_query qpos app]. unfold table.
  now rewrite !fmap_app.
Qed.

End Errors.

Section Reversal.

Lemma query_consumed_rev (xs : list (Z * Z)) :
  query_consumed (rev xs) = query_consumed xs.
Proof.
  induction xs as [|[l op] xs IH]; simpl; [reflexivity|].
  rewrite query_consumed_app, IH. simpl. lia.
Qed.

Lemma query_consumed_order (a : Alignment) :
  query_consumed (cigar_order a) = query_consumed (cigar a).
Proof.
  unfold cigar_order. destruct (strand a =? 1); [reflexivity|].
  apply query_consumed_rev.
Qed.

Lemma positive_order (a : Alignment) :
  Forall positive_op (cigar a) -> Forall positive_op (cigar_order a).
Proof.
  unfold cigar_order. destruct (strand a =? 1); [tauto|].
  intros H. rewrite rev_alt. now apply Forall_reverse.
Qed.

Lemma unsupported_order (a : Alignment) :
  Exists (fun lop => supported lop.2 = false) (cigar a) ->
  Exists (fun lop => supported lop.2 = false) (cigar_order a).
Proof.
  unfold cigar_order. destruct (strand a =? 1); [tauto|].
  rewrite !Exists_exists. intros (x & Hx & Hbad). exists x. split; [|assumption].
  rewrite rev_alt. now apply elem_of_reverse.
Qed.

End Reversal.

Section Claims.

Lemma positive_split (pre post : list (Z * Z)) (lop : Z * Z) :
  Forall positive_op (pre ++ lop :: post) ->
  Forall well_formed_op pre /\ Forall positive_op post.
Proof.
  intros [Hpre Hpost]%Forall_app. split.
  - now apply positive_well_formed.
  - now inversion Hpost.
Qed.

Lemma leading_insertion_positive (post : list (Z * Z)) :
  0 < leading_insertion post ->
  exists li oi post', post = (li, oi) :: post' /\ is_insertion oi = true.
Proof.
  destruct post as [|[li oi] post']; simpl; [lia|].
  destruct (is_insertion oi) eqn:Hi; [|lia]. intros _. now exists li, oi, post'.
Qed.

(** C2: for an alignment whose match, mismatch and deletion lengths sum
    to the declared reference span [r_en - r_st] (operations being, as an
    aligner reports them, of positive length and of a supported kind, and
    query coordinates fitting the 32 bits of a cell),
    [reference_to_query] returns a table of [span + 1] entries that never
    decreases.  Every reference base lies in one match, mismatch or
    deletion operation; the step from its entry to the next one is 1 for
    a match or mismatch and 0 for a deletion, plus, when the base is the
    last of its operation, the total length of the insertions that follow
    at once.  A step above 1 therefore occurs only at the entry that
    follows an insertion. *)
Theorem reference_to_query_steps (a : Alignment) :
  Forall positive_op (cigar a) ->
  0 <= q_st a ->
  q_st a + query_consumed (cigar a) < 2 ^ 32 ->
  ref_consumed (cigar a) = r_en a - r_st a ->
  exists t : list Z,
    reference_to_query a = Returns (Some <$> t) /\
    length t = Z.to_nat (r_en a - r_st a + 1) /\
    (forall (i : nat) (x y : Z), t !! i = Some x -> t !! S i = Some y -> x <= y) /\
    (forall i : Z, 0 <= i < r_en a - r_st a ->
       exists pre l op post k,
         cigar_order a = pre ++ (l, op) :: post /\
         is_match op || is_deletion op = true /\
         0 <= k < l /\ i = ref_consumed pre + k) /\
    (forall pre l op post k,
       cigar_order a = pre ++ (l, op) :: post ->
       is_match op || is_deletion op = true ->
       0 <= k < l ->
       exists x y : Z,
         t !! Z.to_nat (ref_consumed pre + k) = Some x /\
         t !! Z.to_nat (ref_consumed pre + k + 1) = Some y /\
         y - x = advance op + (if k + 1 =? l then leading_insertion post else 0) /\
         (1 < y - x ->
            k + 1 = l /\
            exists li oi post', post = (li, oi) :: post' /\ is_insertion oi = true)).
Proof.
  intros Hpos Hq Hfit Hspan.
  pose proof (positive_well_formed _ Hpos) as Hwf.
  pose proof (well_formed_order a Hwf) as Hwf'.
  pose proof (positive_order a Hpos) as Hpos'.
  rewrite <- query_consumed_order in Hfit.
  set (t := table (cigar_order a) (q_st a)).
  assert (Hlen : length t = Z.to_nat (r_en a - r_st a + 1)).
  { unfold t. rewrite length_table, ref_consumed_order, Hspan by assumption.
    reflexivity. }
  assert (Hstep : forall pre l op post k,
    cigar_order a = pre ++ (l, op) :: post ->
    is_match op || is_deletion op = true ->
    0 <= k < l ->
    t !! Z.to_nat (ref_consumed pre + k)
      = Some (q_st a + query_consumed pre + advance op * k) /\
    t !! Z.to_nat (ref_consumed pre + k + 1)
      = Some (q_st a + query_consumed pre + advance op * (k + 1)
              + (if k + 1 =? l then leading_insertion post else 0))).
  { intros pre l op post k Hsplit Hop Hk. unfold t. rewrite Hsplit.
    rewrite Hsplit in Hpos'. destruct (positive_split _ _ _ Hpos') as [Hpre Hpost].
    split; [now apply table_lookup_inside | now apply table_lookup_next]. }
  assert (Hcover : forall i : Z, 0 <= i < r_en a - r_st a ->
    exists pre l op post k,
      cigar_order a = pre ++ (l, op) :: post /\
      is_match op || is_deletion op = true /\
      0 <= k < l /\ i = ref_consumed pre + k).
  { intros i Hi. apply reference_base_split; [assumption|].
    rewrite ref_consumed_order, Hspan. exact Hi. }
  exists t. repeat split.
  - unfold reference_to_query. rewrite run_in_span by assumption. simpl.
    fold (table (cigar_order a) (q_st a)).
    rewrite uint32_table by assumption. reflexivity.
  - exact Hlen.
  - intros i x y Hx Hy.
    assert (Hi : 0 <= Z.of_nat i < r_en a - r_st a).
    { apply lookup_lt_Some in Hy. rewrite Hlen in Hy. lia. }
    destruct (Hcover _ Hi) as (pre & l & op & post & k & Hsplit & Hop & Hk & Hik).
    destruct (Hstep pre l op post k Hsplit Hop Hk) as [Hx' Hy'].
    rewrite <- Hik, Nat2Z.id in Hx'.
    replace (Z.to_nat (ref_consumed pre + k + 1)) with (S i) in Hy' by lia.
    rewrite Hx in Hx'. rewrite Hy in Hy'.
    injection Hx' as ->. injection Hy' as ->.
    rewrite Hsplit in Hpos'. destruct (positive_split _ _ _ Hpos') as [_ Hpost].
    pose proof (leading_insertion_nonneg post (positive_well_formed _ Hpost)).
    unfold advance. destruct (is_match op), (k + 1 =? l); lia.
  - exact Hcover.
  - intros pre l op post k Hsplit Hop Hk.
    destruct (Hstep pre l op post k Hsplit Hop Hk) as [Hx Hy].
    eexists _, _. split; [exact Hx|]. split; [exact Hy|]. split; [lia|].
    intros Hbig.
    assert (Hins : k + 1 = l /\ 0 < leading_insertion post).
    { unfold advance in Hbig.
      destruct (Z.eqb_spec (k + 1) l); destruct (is_match op); lia. }
    destruct Hins as [Hlast Hins]. split; [exact Hlast|].
    now apply leading_insertion_positive.
Qed.

(** C10: when the operations are supported, of non-negative length, and
    their match, mismatch and deletion lengths sum to the declared span,
    the run ends without an exception, every index it assigned lies
    between 0 and the span, every index between 0 and the span was
    assigned, and the returned table has [span + 1] cells none of which is
    left as [np.empty] allocated it. *)
Theorem reference_to_query_writes (a : Alignment) :
  Forall well_formed_op (cigar a) ->
  ref_consumed (cigar a) = r_en a - r_st a ->
  exists st : state,
    run_reference_to_query a = Returns st /\
    reference_to_query a = Returns (ref_to_query st) /\
    Forall (fun i => 0 <= i <= r_en a - r_st a) (written st) /\
    (forall i, 0 <= i <= r_en a - r_st a -> i ∈ written st) /\
    length (ref_to_query st) = Z.to_nat (r_en a - r_st a + 1) /\
    Forall is_Some (ref_to_query st).
Proof.
  intros Hwf Hspan.
  pose proof (well_formed_order a Hwf) as Hwf'.
  eexists. split; [apply run_in_span; assumption|].
  unfold reference_to_query. rewrite run_in_span by assumption. simpl.
  repeat split.
  - eapply Forall_impl; [apply Forall_range|]. simpl. intros i Hi. lia.
  - intros i Hi. apply list_elem_of_lookup. exists (Z.to_nat i).
    apply lookup_range. lia.
  - fold (table (cigar_order a) (q_st a)).
    rewrite !length_fmap, length_table, ref_consumed_order, Hspan by assumption.
    reflexivity.
  - apply Forall_fmap, Forall_forall. intros x _. simpl. now eexists.
Qed.

Lemma first_unsupported (ops : list (Z * Z)) :
  Exists (fun lop => supported lop.2 = false) ops ->
  exists pre l op post,
    ops = pre ++ (l, op) :: post /\
    supported op = false /\
    Forall (fun lop => supported lop.2 = true) pre.
Proof.
  induction ops as [|[l op] ops IH]; intros Hex; [inversion Hex|].
  destruct (supported op) eqn:Hop.
  - inversion Hex as [? ? Hbad|? ? Hlater]; subst; simpl in *; [congruence|].
    destruct (IH Hlater) as (pre & l' & op' & post & -> & Hbad & Hpre).
    exists ((l, op) :: pre), l', op', post. repeat split; try assumption.
    now constructor.
  - exists [], l, op, ops. repeat split; [assumption | constructor].
Qed.

Lemma ref_consumed_lengths (ops : list (Z * Z)) :
  Forall (fun lop => 0 <= lop.1) ops -> 0 <= ref_consumed ops.
Proof.
  induction 1 as [|[l op] ops Hl _ IH]; simpl in *; [lia|].
  destruct (is_match op || is_deletion op); lia.
Qed.

Lemma lengths_order (a : Alignment) :
  Forall (fun lop => 0 <= lop.1) (cigar a) ->
  Forall (fun lop => 0 <= lop.1) (cigar_order a).
Proof.
  unfold cigar_order. destruct (strand a =? 1); [tauto|].
  intros H. rewrite rev_alt. now apply Forall_reverse.
Qed.

Lemma supported_order (a : Alignment) :
  Forall (fun lop => supported lop.2 = true) (cigar a) ->
  Forall (fun lop => supported lop.2 = true) (cigar_order a).
Proof.
  unfold cigar_order. destruct (strand a =? 1); [tauto|].
  intros H. rewrite rev_alt. now apply Forall_reverse.
Qed.

Lemma well_formed_both (ops : list (Z * Z)) :
  Forall (fun lop => 0 <= lop.1) ops ->
  Forall (fun lop => supported lop.2 = true) ops ->
  Forall well_formed_op ops.
Proof.
  rewrite !Forall_forall. intros Hlen Hsup lop Hin. split; auto.
Qed.

(** The loop reaches an unsupported operation when what precedes it fits
    the table. *)
Lemma raises_at_unsupported (a : Alignment) (pre post : list (Z * Z)) (l op : Z) :
  cigar_order a = pre ++ (l, op) :: post ->
  Forall well_formed_op pre ->
  supported op = false ->
  ref_consumed pre <= r_en a - r_st a + 1 ->
  reference_to_query a = Raises (TypeError "Invalid cigar operation.").
Proof.
  intros Hsplit Hpre Hbad Hroom.
  pose proof (ref_consumed_nonneg pre Hpre) as Hnn.
  unfold reference_to_query, run_reference_to_query, np_empty.
  destruct (Z.ltb_spec (r_en a - r_st a + 1) 0) as [Hneg|_]; [lia|].
  simpl. rewrite Hsplit, for_each_app.
  erewrite (cigar_loop pre _ []
              (Z.to_nat (r_en a - r_st a + 1) - Z.to_nat (ref_consumed pre)) Hpre);
    [| simpl; f_equal; lia | reflexivity].
  cbn [mbind outcome_bind for_each].
  rewrite cigar_step_unsupported by assumption. reflexivity.
Qed.

(** C8: for an alignment within the caller's contract, operation lengths
    non-negative and match, mismatch and deletion lengths summing to no
    more than the declared span, [reference_to_query] raises the
    [TypeError] of an invalid operation whenever the CIGAR holds an
    operation whose code is not match, mismatch, insertion or deletion,
    and raises nothing when every code is one of these. *)
Theorem reference_to_query_exceptions (a : Alignment) :
  Forall (fun lop => 0 <= lop.1) (cigar a) ->
  ref_consumed (cigar a) <= r_en a - r_st a ->
  (Exists (fun lop => supported lop.2 = false) (cigar a) ->
   reference_to_query a = Raises (TypeError "Invalid cigar operation.")) /\
  (Forall (fun lop => supported lop.2 = true) (cigar a) ->
   exists t, reference_to_query a = Returns t).
Proof.
  intros Hlen Hspan. split.
  - intros Hbad%unsupported_order.
    destruct (first_unsupported _ Hbad) as (pre & l & op & post & Hsplit & Hop & Hpre).
    pose proof (lengths_order a Hlen) as Hlen'.
    rewrite <- ref_consumed_order in Hspan.
    rewrite Hsplit in Hlen', Hspan.
    apply Forall_app in Hlen' as [Hlpre Hlpost].
    rewrite ref_consumed_app in Hspan.
    pose proof (ref_consumed_lengths _ Hlpost) as Hnn.
    apply (raises_at_unsupported a pre post l op Hsplit);
      [now apply well_formed_both | assumption | lia].
  - intros Hsup. rewrite run_below_span;
      [now eexists | now apply well_formed_both | assumption].
Qed.

End Claims.

Section Examples.

(** Two matches, three inserted bases, one deleted base, two matches. *)
Definition forward_alignment : Alignment :=
  {| r_st := 10; r_en := 15; q_st := 3; strand := 1;
     cigar := [(2, 0); (3, 1); (1, 2); (2, 7)] |}.

(** The same operations for a read aligned to the reverse strand. *)
Definition reverse_alignment : Alignment :=
  {| r_st := 10; r_en := 15; q_st := 3; strand := -1;
     cigar := [(2, 0); (3, 1); (1, 2); (2, 7)] |}.

Example forward_table :
  reference_to_query forward_alignment
  = Returns [Some 3; Some 4; Some 8; Some 8; Some 9; Some 10].
Proof. reflexivity. Qed.

Example reverse_table :
  reference_to_query reverse_alignment
  = Returns [Some 3; Some 4; Some 5; Some 8; Some 9; Some 10].
Proof. reflexivity. Qed.

Example empty_cigar_table :
  reference_to_query {| r_st := 4; r_en := 4; q_st := 9; strand := 1; cigar := [] |}
  = Returns [Some 9].
Proof. reflexivity. Qed.

Lemma reference_to_query_steps_witness :
  ref_consumed (cigar forward_alignment)
    = r_en forward_alignment - r_st forward_alignment /\
  exists t : list Z,
    reference_to_query forward_alignment = Returns (Some <$> t) /\
    length t = 6%nat.
Proof.
  split; [reflexivity|].
  destruct (reference_to_query_steps forward_alignment) as (t & Ht & Hlen & _).
  - repeat constructor.
  - simpl. lia.
  - simpl. lia.
  - reflexivity.
  - exists t. split; [exact Ht | exact Hlen].
Defined.

Lemma reference_to_query_writes_witness :
  ref_consumed (cigar reverse_alignment)
    = r_en reverse_alignment - r_st reverse_alignment /\
  exists st : state,
    run_reference_to_query reverse_alignment = Returns st /\
    Forall is_Some (ref_to_query st).
Proof.
  split; [reflexivity|].
  destruct (reference_to_query_writes reverse_alignment)
    as (st & Hrun & _ & _ & _ & _ & Hfull).
  - repeat constructor; simpl; lia.
  - reflexivity.
  - exists st. split; [exact Hrun | exact Hfull].
Defined.

(** An operation of code 4 (a soft clip) after two matches. *)
Definition clipped_alignment : Alignment :=
  {| r_st := 0; r_en := 3; q_st := 0; strand := 1; cigar := [(2, 0); (1, 4)] |}.

Lemma reference_to_query_exceptions_witness :
  reference_to_query clipped_alignment
    = Raises (TypeError "Invalid cigar operation.") /\
  (exists t, reference_to_query forward_alignment = Returns t).
Proof.
  split.
  - apply (reference_to_query_exceptions clipped_alignment).
    + repeat constructor; simpl; lia.
    + simpl. lia.
    + apply Exists_cons_tl, Exists_cons_hd. reflexivity.
  - apply (reference_to_query_exceptions forward_alignment).
    + repeat constructor; simpl; lia.
    + simpl. lia.
    + repeat constructor.
Defined.

End Examples.
End alignment_facts.

(** ** fast5.py *)

Module fast5.

(** *** [sequence_to_signal] *)

(** [a.nonzero()[0]] on a one-dimensional array: the indices of the
    entries that differ from 0, in ascending order.  [i] is the index of
    the head of [a]. *)
Fixpoint nonzero_from (i : Z) (a : list Z) : list Z :=
  match a with
  | [] => []
  | x :: a' =>
      if x =? 0 then nonzero_from (i + 1) a' else i :: nonzero_from (i + 1) a'
  end.

Definition nonzero (a : list Z) : list Z := nonzero_from 0 a.

(** The indices that [nonzero] returns are of dtype [int64]: a product or a
    sum that leaves the 64 bits wraps around, silently. *)
Definition int64 (v : Z) : Z := (v + 2 ^ 63) mod 2 ^ 64 - 2 ^ 63.

Definition fits_int64 (v : Z) : bool := (- 2 ^ 63 <=? v) && (v <? 2 ^ 63).

(** The 64-bit signed integers. *)
Definition int64_range (v : Z) : Prop := - 2 ^ 63 <= v < 2 ^ 63.

(** A Python integer is combined with the [int64] array as an [int64]; one
    that does not fit raises (NumPy 2; earlier versions then leave the
    integers for another dtype). *)
Definition sequence_to_signal (move_table : list Z) (raw_start_idx block_stride : Z)
  : outcome (list Z) :=
  let move_table := move_table ++ [1] in
  if fits_int64 block_stride && fits_int64 raw_start_idx then
    Returns ((fun i => int64 (int64 (i * block_stride) + raw_start_idx))
               <$> nonzero move_table)
  else Raises OverflowError.

(** *** [parse_fastq] *)

(** An array as [np.ndarray(shape, dtype)] creates it: the shape, and one
    cell per element, none of them written. *)
Record ndarray : Type := {
  shape : list Z;
  cells : list (option Z)
}.

(** NumPy's bound on the number of dimensions (32 up to NumPy 1.26). *)
Definition NPY_MAXDIMS : nat := 32.

(** [np.ndarray(shape, dtype=np.uint8)]: the first argument is the shape. *)
Definition np_ndarray (shp : list Z) : outcome ndarray :=
  if existsb (fun d => d <? 0) shp then Raises ValueError
  else if (NPY_MAXDIMS <? length shp)%nat then Raises ValueError
  else Returns {| shape := shp;
                  cells := replicate (Z.to_nat (fold_right Z.mul 1 shp)) None |}.

(** The characters that [str.strip] removes; a FASTQ record is ASCII text. *)
Definition is_space (c : ascii) : bool :=
  let n := nat_of_ascii c in
  ((9 <=? n) && (n <=? 13) || (28 <=? n) && (n <=? 32))%nat.

Fixpoint lstrip (s : string) : string :=
  match s with
  | EmptyString => EmptyString
  | String c s' => if is_space c then lstrip s' else s
  end.

Fixpoint rstrip (s : string) : string :=
  match s with
  | EmptyString => EmptyString
  | String c s' =>
      match rstrip s' with
      | EmptyString => if is_space c then EmptyString else String c EmptyString
      | r => String c r
      end
  end.

Definition strip (s : string) : string := rstrip (lstrip s).

Definition newline : ascii := ascii_of_nat 10.

(** [s.split('\n')]: always at least one piece. *)
Fixpoint split_lines (s : string) : list string :=
  match s with
  | EmptyString => [EmptyString]
  | String c s' =>
      if Ascii.eqb c newline then EmptyString :: split_lines s'
      else match split_lines s' with
           | piece :: pieces => String c piece :: pieces
           | [] => [String c EmptyString]
           end
  end.

(** [data[i]] for a non-negative literal index. *)
Definition getitem {A} (data : list A) (i : nat) : outcome A :=
  match data !! i with
  | Some x => Returns x
  | None => Raises IndexError
  end.

Definition ord (c : ascii) : Z := Z.of_nat (nat_of_ascii c).

Definition parse_fastq (fastq : string) : outcome (string * ndarray) :=
  let data := split_lines (strip fastq) in
  sequence ← getitem data 1;
  line ← getitem data 3;
  qualities ← np_ndarray ((fun c => ord c - 33) <$> list_ascii_of_string line);
  Returns (sequence, qualities).

(** The array that the docstring promises: one Phred quality per base. *)
Definition phred (line : string) : list Z :=
  (fun c => ord c - 33) <$> list_ascii_of_string line.

(** *** [normalize_mad]

    Samples are binary64 numbers ([float64]), the precision that the
    specification names; the kernel's primitive floats compute with them
    as the hardware does. *)

Local Open Scope float_scope.

Fixpoint insert_sorted (x : float) (l : list float) : list float :=
  match l with
  | [] => [x]
  | y :: l' => if x <=? y then x :: l else y :: insert_sorted x l'
  end.

Definition sort (a : list float) : list float := fold_right insert_sorted [] a.

(** [np.median] of a one-dimensional array: [nan] for an empty array or
    one that holds a [nan]; otherwise the mean of the one or two middle
    elements of the sorted array. *)
Definition median (a : list float) : float :=
  match a with
  | [] => nan
  | _ =>
      if existsb is_nan a then nan
      else
        let s := sort a in
        let n := length a in
        if Nat.even n
        then (nth (n / 2 - 1) s nan + nth (n / 2) s nan) / 2
        else nth (n / 2) s nan
  end.

(** [scale_factor] is [None] for Python's [None]. *)
Definition normalize_mad (signal : list float) (scale_factor : option float)
  : outcome (list float) :=
  let scale_factor := match scale_factor with None => 1 | Some f => f end in
  let med := median signal in
  let shifted := (fun x => x - med) <$> signal in
  let mad := median (abs <$> shifted) in
  Returns ((fun x => x / (scale_factor * mad)) <$> shifted).

(** The value of [scale_factor] when the caller leaves it out. *)
Definition default_scale_factor : float := 1.4826.

(** The call [normalize_mad(signal)]. *)
Definition normalize_mad_default (signal : list float) : outcome (list float) :=
  normalize_mad signal (Some default_scale_factor).

(** The median absolute deviation that the function divides by. *)
Definition mad (signal : list float) : float :=
  median (abs <$> ((fun x => x - median signal) <$> signal)).

(** A result of a division that left the finite numbers. *)
Definition nan_or_infinite (x : float) : bool :=
  match Prim2SF x with
  | S754_nan | S754_infinity _ => true
  | _ => false
  end.

End fast5.

(** ** Facts about [sequence_to_signal], [parse_fastq] and [normalize_mad] *)

Module fast5_facts.
Import fast5.

Section MoveTable.

(** A move table holds one flag per block. *)
Definition flags (move_table : list Z) : Prop :=
  Forall (fun m => m = 0 \/ m = 1) move_table.

Lemma nonzero_from_elem (a : list Z) :
  forall i x, x ∈ nonzero_from i a <->
    exists (k : nat) (m : Z), a !! k = Some m /\ m <> 0 /\ x = i + Z.of_nat k.
Proof.
  induction a as [|m a IH]; intros i x; simpl.
  - split; [intros H; inversion H | intros (k & m & Hk & _); discriminate].
  - destruct (Z.eqb_spec m 0) as [->|Hm].
    + rewrite IH. split.
      * intros (k & m & Hk & Hm & ->). exists (S k), m. repeat split; try assumption. lia.
      * intros ([|k] & m & Hk & Hm & ->); simpl in Hk.
        -- congruence.
        -- exists k, m. repeat split; try assumption. lia.
    + rewrite elem_of_cons, IH. split.
      * intros [->|(k & m' & Hk & Hm' & ->)].
        -- exists 0%nat, m. repeat split; try assumption. lia.
        -- exists (S k), m'. repeat split; try assumption. lia.
      * intros ([|k] & m' & Hk & Hm' & ->); simpl in Hk.
        -- left. lia.
        -- right. exists k, m'. repeat split; try assumption. lia.
Qed.

Lemma nonzero_from_ascending (a : list Z) :
  forall i, StronglySorted Z.lt (nonzero_from i a).
Proof.
  induction a as [|m a IH]; intros i; simpl; [constructor|].
  destruct (m =? 0); [apply IH|]. constructor; [apply IH|].
  apply Forall_forall. intros x (k & m' & _ & _ & ->)%nonzero_from_elem. lia.
Qed.

Lemma nonzero_from_count (a : list Z) :
  forall i, flags a -> length (nonzero_from i a) = count_occ Z.eq_dec a 1.
Proof.
  induction a as [|m a IH]; intros i Hflags; [reflexivity|].
  inversion Hflags as [|? ? [-> | ->] Hrest]; subst; simpl.
  - now apply IH.
  - f_equal. now apply IH.
Qed.

Lemma fits_int64_true (v : Z) : int64_range v -> fits_int64 v = true.
Proof.
  unfold int64_range, fits_int64. intros [Hlo Hhi].
  apply andb_true_iff. split; [now apply Z.leb_le | now apply Z.ltb_lt].
Qed.

Lemma int64_small (v : Z) : int64_range v -> int64 v = v.
Proof.
  unfold int64_range, int64. intros Hv. rewrite Z.mod_small; lia.
Qed.

Lemma int64_add_l (x y : Z) : int64 (int64 x + y) = int64 (x + y).
Proof.
  unfold int64.
  replace ((x + 2 ^ 63) mod 2 ^ 64 - 2 ^ 63 + y + 2 ^ 63)
    with ((x + 2 ^ 63) mod 2 ^ 64 + y) by lia.
  rewrite Z.add_mod_idemp_l by lia. do 2 f_equal. lia.
Qed.

(** A block between the first and the closing one maps between their
    signal indices. *)
Lemma block_in_range (n i start stride : Z) :
  0 <= i <= n ->
  int64_range start ->
  int64_range (n * stride + start) ->
  int64_range (i * stride + start).
Proof.
  unfold int64_range. intros Hi Hs Hn.
  destruct (Z.le_gt_cases 0 stride); split; nia.
Qed.

Lemma nonzero_extended (move_table : list Z) (i : Z) :
  i ∈ nonzero (move_table ++ [1]) -> 0 <= i <= Z.of_nat (length move_table).
Proof.
  unfold nonzero. intros (k & m & Hk & _ & ->)%nonzero_from_elem.
  apply lookup_lt_Some in Hk. rewrite length_app in Hk. simpl in Hk. lia.
Qed.

(** The call on arguments that fit, with the two wrap-arounds merged. *)
Lemma sequence_to_signal_fits (move_table : list Z) (raw_start_idx block_stride : Z) :
  int64_range block_stride ->
  int64_range raw_start_idx ->
  sequence_to_signal move_table raw_start_idx block_stride
  = Returns ((fun i => int64 (i * block_stride + raw_start_idx))
               <$> nonzero (move_table ++ [1])).
Proof.
  intros Hb Hs. unfold sequence_to_signal.
  rewrite (fits_int64_true _ Hb), (fits_int64_true _ Hs). cbn [andb]. f_equal.
  apply list_fmap_ext. intros _ i _. apply int64_add_l.
Qed.

(** The same when the closing entry fits as well: nothing wraps. *)
Lemma sequence_to_signal_exact (move_table : list Z) (raw_start_idx block_stride : Z) :
  int64_range block_stride ->
  int64_range raw_start_idx ->
  int64_range (Z.of_nat (length move_table) * block_stride + raw_start_idx) ->
  sequence_to_signal move_table raw_start_idx block_stride
  = Returns ((fun i => i * block_stride + raw_start_idx)
               <$> nonzero (move_table ++ [1])).
Proof.
  intros Hb Hs Hend. rewrite sequence_to_signal_fits by assumption. f_equal.
  apply Forall_fmap_ext, Forall_forall. intros i Hi%nonzero_extended.
  apply int64_small. now apply (block_in_range (Z.of_nat (length move_table))).
Qed.

(** C4: for a move table of 0/1 flags, with a stride, a start index and a
    closing entry that fit NumPy's 64-bit integers, [sequence_to_signal]
    returns [blockIndex * blockStride + rawStartIndex] over the block
    indices whose flag is 1 in the table extended by a trailing 1, in
    ascending order of the indices; the number of entries is the number of
    1 flags of the extended table, one more than the number of called
    bases; and the table [0,1,0,0,1,1] with stride 10 and start 5 gives
    [15,45,55,65]. *)
Theorem sequence_to_signal_blocks (move_table : list Z) (raw_start_idx block_stride : Z) :
  flags move_table ->
  int64_range block_stride ->
  int64_range raw_start_idx ->
  int64_range (Z.of_nat (length move_table) * block_stride + raw_start_idx) ->
  exists blocks : list Z,
    sequence_to_signal move_table raw_start_idx block_stride
      = Returns ((fun i => i * block_stride + raw_start_idx) <$> blocks) /\
    (forall i, i ∈ blocks <-> 0 <= i /\ (move_table ++ [1]) !! Z.to_nat i = Some 1) /\
    StronglySorted Z.lt blocks /\
    length blocks = count_occ Z.eq_dec (move_table ++ [1]) 1 /\
    length blocks = S (count_occ Z.eq_dec move_table 1) /\
    sequence_to_signal [0; 1; 0; 0; 1; 1] 5 10 = Returns [15; 45; 55; 65].
Proof.
  intros Hflags Hb Hs Hend.
  assert (Hext : flags (move_table ++ [1])).
  { apply Forall_app. split; [assumption|]. constructor; [now right | constructor]. }
  exists (nonzero (move_table ++ [1])).
  split; [now apply sequence_to_signal_exact|]. unfold nonzero.
  split; [|split; [|split; [|split; [|reflexivity]]]].
  - intros i. rewrite nonzero_from_elem. split.
    + intros (k & m & Hk & Hm & ->).
      rewrite Z.add_0_l, Nat2Z.id, Hk. split; [lia|]. f_equal.
      apply list_elem_of_lookup_2 in Hk.
      unfold flags in Hext. rewrite Forall_forall in Hext.
      destruct (Hext m Hk); [contradiction | assumption].
    + intros [Hi Hone]. exists (Z.to_nat i), 1. repeat split; [assumption | lia | lia].
  - apply nonzero_from_ascending.
  - now apply nonzero_from_count.
  - rewrite nonzero_from_count by assumption.
    rewrite count_occ_app. simpl. lia.
Qed.

Lemma sequence_to_signal_blocks_witness :
  flags [0; 1; 0; 0; 1; 1] /\
  exists blocks : list Z,
    sequence_to_signal [0; 1; 0; 0; 1; 1] 5 10
      = Returns ((fun i => i * 10 + 5) <$> blocks) /\
    length blocks = 4%nat.
Proof.
  assert (Hflags : flags [0; 1; 0; 0; 1; 1])
    by (repeat constructor; (now left) || (now right)).
  split; [exact Hflags|].
  destruct (sequence_to_signal_blocks [0; 1; 0; 0; 1; 1] 5 10 Hflags)
    as (blocks & Hret & _ & _ & _ & Hlen & _).
  - unfold int64_range. lia.
  - unfold int64_range. lia.
  - unfold int64_range. simpl. lia.
  - exists blocks. split; [exact Hret | exact Hlen].
Defined.

Lemma nonzero_from_app (a b : list Z) :
  forall i, nonzero_from i (a ++ b)
            = nonzero_from i a ++ nonzero_from (i + Z.of_nat (length a)) b.
Proof.
  induction a as [|m a IH]; intros i; simpl.
  - now rewrite Z.add_0_r.
  - rewrite IH. replace (i + 1 + Z.of_nat (length a)) with (i + Z.pos (Pos.of_succ_nat (length a))) by lia.
    now destruct (m =? 0).
Qed.

(** Stride 0 and a negative start index are mapped like any others. *)
Lemma sequence_to_signal_unchecked_counterexample :
  (0 <= 0 \/ -5 < 0) /\
  sequence_to_signal [0; 1] (-5) 0 = Returns [-5; -5].
Proof. split; [left; lia | reflexivity]. Qed.

(** The closing entry of the largest start index wraps to the smallest. *)
Example closing_entry_wraps :
  sequence_to_signal [0] (2 ^ 63 - 1) 1 = Returns [- 2 ^ 63].
Proof. reflexivity. Qed.

(** C7, as the code has it: [sequence_to_signal] checks neither the
    stride nor the start index.  For 64-bit values of either sign it
    raises nothing and returns [blockIndex * blockStride + rawStartIndex],
    reduced to 64 bits, over the non-zero flags of the extended table,
    the last entry being the closing one for [len(move_table)]. *)
Theorem sequence_to_signal_total (move_table : list Z) (raw_start_idx block_stride : Z) :
  int64_range block_stride ->
  int64_range raw_start_idx ->
  ~ fails (sequence_to_signal move_table raw_start_idx block_stride) /\
  exists v : list Z,
    sequence_to_signal move_table raw_start_idx block_stride = Returns v /\
    v = ((fun i => int64 (i * block_stride + raw_start_idx))
           <$> nonzero (move_table ++ [1])) /\
    last v = Some (int64 (Z.of_nat (length move_table) * block_stride + raw_start_idx)).
Proof.
  intros Hb Hs. rewrite sequence_to_signal_fits by assumption. split.
  - intros [e He]. discriminate He.
  - eexists. split; [reflexivity|]. split; [reflexivity|].
    unfold nonzero. rewrite nonzero_from_app.
    change (nonzero_from (0 + Z.of_nat (length move_table)) [1])
      with [0 + Z.of_nat (length move_table)].
    rewrite fmap_snoc, last_snoc. reflexivity.
Qed.

Lemma sequence_to_signal_total_witness :
  (0 <= 0 \/ -5 < 0) /\
  ~ fails (sequence_to_signal [0; 1] (-5) 0).
Proof.
  split; [left; lia|].
  apply (sequence_to_signal_total [0; 1] (-5) 0); unfold int64_range; lia.
Defined.

End MoveTable.

Section Fastq.

(** A two-base read with qualities 2 and 3. *)
Definition two_base_read : string :=
  "@read" +:+ String newline "AC" +:+ String newline "+" +:+ String newline "#$".

(** A read of 33 bases, all of quality 40. *)
Definition long_read : string :=
  "@read" +:+ String newline "ACGTACGTACGTACGTACGTACGTACGTACGTA"
    +:+ String newline "+"
    +:+ String newline "IIIIIIIIIIIIIIIIIIIIIIIIIIIIIIIII".

(** C9 fails on the code: the qualities reach [np.ndarray] as the shape
    of the array, not as its content.  The 2 and 3 of a two-base read
    give a 2 x 3 array of six cells that were never written, and a read
    of more than 32 bases raises. *)
Lemma parse_fastq_qualities_as_shape :
  parse_fastq two_base_read
    = Returns ("AC"%string, {| shape := [2; 3]; cells := replicate 6 None |}) /\
  phred "#$" = [2; 3] /\
  parse_fastq long_read = Raises ValueError.
Proof. repeat split. Qed.

End Fastq.

Section Normalization.

Local Open Scope float_scope.

Lemma zero_quotient (x d : float) :
  (exists s, Prim2SF d = S754_zero s) \/ Prim2SF d = S754_nan ->
  nan_or_infinite (x / d) = true.
Proof.
  intros Hd. unfold nan_or_infinite. rewrite div_spec. unfold SF64div.
  destruct Hd as [[s ->] | ->]; destruct (Prim2SF x); reflexivity.
Qed.

Lemma zero_product (f m : float) :
  (exists s, Prim2SF m = S754_zero s) ->
  (exists s, Prim2SF (f * m) = S754_zero s) \/ Prim2SF (f * m) = S754_nan.
Proof.
  intros [s Hm]. rewrite mul_spec, Hm. unfold SF64mul.
  destruct (Prim2SF f); simpl; eauto.
Qed.

Lemma eqb_zero (m : float) :
  (m =? 0) = true -> exists s, Prim2SF m = S754_zero s.
Proof.
  rewrite FloatAxioms.eqb_spec. change (Prim2SF 0) with (S754_zero false).
  destruct (Prim2SF m) as [s| [|] | | [|] ? ?]; simpl; try discriminate. eauto.
Qed.

Example median_of_four : median [4; 1; 3; 2] = 2.5.
Proof. reflexivity. Qed.

Example mad_of_five : median [1; 2; 3; 4; 5] = 3 /\ mad [1; 2; 3; 4; 5] = 1.
Proof. split; reflexivity. Qed.

(** An empty signal and a constant one are normalized without complaint. *)
Lemma normalize_mad_unchecked_counterexample :
  normalize_mad [] (Some default_scale_factor) = Returns [] /\
  mad [7; 7; 7] = 0 /\
  normalize_mad [7; 7; 7] (Some default_scale_factor) = Returns [nan; nan; nan].
Proof. repeat split. Qed.

(** C5, as the code has it: [normalize_mad] raises nothing.  It returns
    as many samples as it received, so an empty signal gives an empty
    result, and when the median absolute deviation is 0 every sample of
    the result is a quotient by zero: [nan] or an infinity. *)
Theorem normalize_mad_unchecked (signal : list float) (scale_factor : option float) :
  ~ fails (normalize_mad signal scale_factor) /\
  normalize_mad [] scale_factor = Returns [] /\
  exists v : list float,
    normalize_mad signal scale_factor = Returns v /\
    length v = length signal /\
    ((mad signal =? 0) = true -> Forall (fun x => nan_or_infinite x = true) v).
Proof.
  split; [intros [e He]; discriminate He|]. split; [reflexivity|].
  eexists. split; [reflexivity|]. split; [now rewrite !length_fmap|].
  intros Hmad%eqb_zero. apply Forall_fmap, Forall_forall. intros x _. simpl.
  apply zero_quotient, zero_product. exact Hmad.
Qed.

(** C6: [normalize_mad] returns a sequence as long as the signal whose
    [i]-th sample is [(signal[i] - median) / (scale_factor * MAD)], [MAD]
    being the median of the absolute deviations from the median; [None]
    as scale factor stands for 1, the scale factor left out stands for
    1.4826, and [1,2,3,4,5] with scale factor 1 gives [-2,-1,0,1,2]. *)
Theorem normalize_mad_formula (signal : list float) (scale_factor : float) :
  (exists v : list float,
     normalize_mad signal (Some scale_factor) = Returns v /\
     length v = length signal /\
     forall (i : nat) (x : float), signal !! i = Some x ->
       v !! i = Some ((x - median signal) / (scale_factor * mad signal))) /\
  mad signal = median (abs <$> ((fun x => x - median signal) <$> signal)) /\
  normalize_mad signal None = normalize_mad signal (Some 1) /\
  normalize_mad_default signal = normalize_mad signal (Some 1.4826) /\
  normalize_mad [1; 2; 3; 4; 5] (Some 1) = Returns [-2; -1; 0; 1; 2].
Proof.
  split; [|repeat split].
  eexists. split; [reflexivity|]. split; [now rewrite !length_fmap|].
  intros i x Hx. rewrite !list_lookup_fmap, Hx. reflexivity.
Qed.

End Normalization.
End fast5_facts.

(** ** utils.py *)

Module utils.

(** *** The motif as a regular expression

    [re.finditer(motif, text, re.I)] is modelled for the motifs made of
    single-character items: a base, a bracketed class of bases, or [.].
    Such a motif matches exactly as many characters as it has items. *)
Inductive item : Type :=
| Lit (c : ascii)
| Class (cs : list ascii)
| Dot.

(** Case folding of [re.I].  Sequences and motifs are ASCII text. *)
Definition lower (c : ascii) : ascii :=
  let n := nat_of_ascii c in
  if ((65 <=? n) && (n <=? 90))%nat then ascii_of_nat (n + 32) else c.

Definition item_matches (it : item) (c : ascii) : bool :=
  match it with
  | Lit a => Ascii.eqb (lower a) (lower c)
  | Class cs => existsb (fun a => Ascii.eqb (lower a) (lower c)) cs
  | Dot => negb (Ascii.eqb c (ascii_of_nat 10))
  end.

(** The motif matches a prefix of [s]. *)
Fixpoint match_here (motif : list item) (s : list ascii) : bool :=
  match motif, s with
  | [], _ => true
  | it :: motif', c :: s' => item_matches it c && match_here motif' s'
  | _ :: _, [] => false
  end.

(** The scan of [re.finditer], from left to right over the text that is
    left, [pos] being the index of its first character.  A match is
    reported where the motif matches and no reported match covers the
    position; after a match the scan resumes at its end, that is, it
    passes over the [skip] characters that the match still covers.  The
    empty motif matches at every index, the end of the text included. *)
Fixpoint finditer_from (motif : list item) (s : list ascii) (pos : Z) (skip : nat)
  : list Z :=
  match s with
  | [] => match skip with
          | O => if match_here motif [] then [pos] else []
          | S _ => []
          end
  | _ :: s' =>
      match skip with
      | S k => finditer_from motif s' (pos + 1) k
      | O =>
          if match_here motif s
          then pos :: finditer_from motif s' (pos + 1) (length motif - 1)
          else finditer_from motif s' (pos + 1) 0
      end
  end.

(** [m.start() for m in re.finditer(motif, text, re.I)] *)
Definition finditer (motif : list item) (text : string) : list Z :=
  finditer_from motif (list_ascii_of_string text) 0 0.

(** *** Reverse complement *)

(** The complement of each IUPAC letter, as [Bio.Seq] tabulates it. *)
Definition ambiguous_dna_complement : list (ascii * ascii) :=
  [("A", "T"); ("C", "G"); ("G", "C"); ("T", "A"); ("M", "K"); ("R", "Y");
   ("W", "W"); ("S", "S"); ("Y", "R"); ("K", "M"); ("V", "B"); ("H", "D");
   ("D", "H"); ("B", "V"); ("X", "X"); ("N", "N")]%char.

(** Upper-case and lower-case letters are complemented alike, uracil is
    complemented as thymine is, and any other character is kept. *)
Definition complement (c : ascii) : ascii :=
  let table :=
    (ambiguous_dna_complement ++ [("U", "A")]%char)
      ++ ((fun p => (lower p.1, lower p.2))
            <$> (ambiguous_dna_complement ++ [("U", "A")]%char)) in
  match find (fun p => Ascii.eqb p.1 c) table with
  | Some p => p.2
  | None => c
  end.

Definition reverse_complement (sequence : string) : string :=
  string_of_list_ascii (rev (complement <$> list_ascii_of_string sequence)).

(** *** [build_reference_idx] *)

(** The sets computed for one record of the FASTA file. *)
Definition contig_positions (sequence : string) (motif : list item) (rel_idx : Z)
  : gset Z * gset Z :=
  let length := Z.of_nat (String.length sequence) in
  let fwd_pos : gset Z :=
    list_to_set ((fun start => start + rel_idx) <$> finditer motif sequence) in
  let pos_for_rev i := length - (i + rel_idx) - 1 in
  let rev_pos : gset Z :=
    list_to_set (pos_for_rev <$> finditer motif (reverse_complement sequence)) in
  (fwd_pos, rev_pos).

(** [records] are the [(name, sequence)] pairs that [SeqIO.parse] yields,
    in the order of the file.  The dictionary is a finite map: the order
    of its keys is not kept. *)
Definition build_reference_idx
    (records : list (string * string)) (motif : list item) (rel_idx : Z)
  : gmap string (gset Z * gset Z) :=
  fold_left
    (fun positions record =>
       <[record.1 := contig_positions record.2 motif rel_idx]> positions)
    records ∅.

(** *** Vocabulary of the properties *)

(** The motif occurs in the text at index [p]. *)
Definition occurs_at (motif : list item) (text : string) (p : nat) : bool :=
  (p <=? String.length text)%nat
  && match_here motif (drop p (list_ascii_of_string text)).

End utils.

(** ** Facts about [build_reference_idx] *)

Module utils_facts.
Import utils.

Section Scan.

Variable motif : list item.

(** Every reported index is one where the motif occurs, past the
    characters that the scan had to pass over. *)
Lemma finditer_from_sound (s : list ascii) :
  forall (pos : Z) (skip : nat) (r : Z),
    r ∈ finditer_from motif s pos skip ->
    exists j : nat,
      r = pos + Z.of_nat j /\ (skip <= j <= length s)%nat /\
      match_here motif (drop j s) = true.
Proof.
  induction s as [|c s IH]; intros pos skip r Hr.
  - destruct skip; simpl in Hr; [|inversion Hr].
    destruct (match_here motif []) eqn:Hm; [|inversion Hr].
    apply list_elem_of_singleton in Hr as ->.
    exists 0%nat. simpl. repeat split; (assumption || lia).
  - destruct skip as [|k]; cbn [finditer_from] in Hr.
    + destruct (match_here motif (c :: s)) eqn:Hm.
      * apply elem_of_cons in Hr as [-> | Hr].
        -- exists 0%nat. simpl. repeat split; (assumption || lia).
        -- destruct (IH _ _ _ Hr) as (j & -> & Hj & Hmj).
           exists (S j). simpl. repeat split; (assumption || lia).
      * destruct (IH _ _ _ Hr) as (j & -> & Hj & Hmj).
        exists (S j). simpl. repeat split; (assumption || lia).
    + destruct (IH _ _ _ Hr) as (j & -> & Hj & Hmj).
      exists (S j). simpl. repeat split; (assumption || lia).
Qed.

(** Every occurrence that the scan does not pass over is reported, or
    lies within the match reported before it. *)
Lemma finditer_from_complete (s : list ascii) :
  forall (pos : Z) (skip j : nat),
    match_here motif (drop j s) = true ->
    (skip <= j <= length s)%nat ->
    exists r : Z,
      r ∈ finditer_from motif s pos skip /\
      pos <= r <= pos + Z.of_nat j /\
      pos + Z.of_nat j <= r + Z.of_nat (length motif - 1).
Proof.
  induction s as [|c s IH]; intros pos skip j Hm Hj.
  - simpl in Hj. assert (j = 0%nat) as -> by lia. assert (skip = 0%nat) as -> by lia.
    simpl in Hm |- *. rewrite Hm. exists pos. split; [apply list_elem_of_singleton; reflexivity | lia].
  - destruct skip as [|k]; cbn [finditer_from].
    + destruct (match_here motif (c :: s)) eqn:Hhere.
      * destruct (Nat.le_gt_cases j (length motif - 1)) as [Hnear|Hfar].
        -- exists pos. split; [apply elem_of_cons; now left | lia].
        -- destruct j as [|j]; [lia|]. simpl in Hm, Hj.
           destruct (IH (pos + 1) (length motif - 1)%nat j Hm ltac:(lia))
             as (r & Hr & Hlo & Hhi).
           exists r. split; [apply elem_of_cons; now right | lia].
      * destruct j as [|j]; [simpl in Hm; congruence|]. simpl in Hm, Hj.
        destruct (IH (pos + 1) 0%nat j Hm ltac:(lia)) as (r & Hr & Hlo & Hhi).
        exists r. split; [assumption | lia].
    + destruct j as [|j]; [lia|]. simpl in Hm, Hj.
      destruct (IH (pos + 1) k j Hm ltac:(lia)) as (r & Hr & Hlo & Hhi).
      exists r. split; [assumption | lia].
Qed.

(** Reported matches follow one another without overlap. *)
Lemma finditer_from_apart (s : list ascii) :
  forall (pos : Z) (skip : nat),
    StronglySorted (fun x y => x < y /\ x + Z.of_nat (length motif) <= y)
      (finditer_from motif s pos skip).
Proof.
  induction s as [|c s IH]; intros pos skip.
  - destruct skip; simpl; [|constructor].
    destruct (match_here motif []); repeat constructor.
  - destruct skip as [|k]; cbn [finditer_from]; [|apply IH].
    destruct (match_here motif (c :: s)); [|apply IH].
    constructor; [apply IH|]. apply Forall_forall. intros r Hr.
    apply finditer_from_sound in Hr as (j & -> & Hj & _). lia.
Qed.

End Scan.

Section Text.

Lemma length_list_ascii (text : string) :
  length (list_ascii_of_string text) = String.length text.
Proof. induction text as [|c text IH]; simpl; congruence. Qed.

Lemma finditer_occurs (motif : list item) (text : string) (start : Z) :
  start ∈ finditer motif text ->
  0 <= start /\ occurs_at motif text (Z.to_nat start) = true.
Proof.
  intros (j & -> & Hj & Hm)%finditer_from_sound.
  rewrite length_list_ascii in Hj. split; [lia|].
  unfold occurs_at. rewrite Z.add_0_l, Nat2Z.id, Hm, andb_true_r.
  apply Nat.leb_le. lia.
Qed.

Lemma occurs_covered (motif : list item) (text : string) (p : nat) :
  occurs_at motif text p = true ->
  exists start : Z,
    start ∈ finditer motif text /\
    start <= Z.of_nat p <= start + Z.of_nat (length motif - 1).
Proof.
  unfold occurs_at. intros [Hp%Nat.leb_le Hm]%andb_true_iff.
  rewrite <- length_list_ascii in Hp.
  destruct (finditer_from_complete motif _ 0 0%nat p Hm ltac:(lia))
    as (r & Hr & Hlo & Hhi).
  exists r. split; [exact Hr | lia].
Qed.

End Text.

Section Dictionary.

Variables (motif : list item) (rel_idx : Z).

Let insert_record (positions : gmap string (gset Z * gset Z))
    (record : string * string) :=
  <[record.1 := contig_positions record.2 motif rel_idx]> positions.

Lemma fold_other (records : list (string * string)) (name : string) :
  forall positions : gmap string (gset Z * gset Z),
    name ∉ records.*1 ->
    fold_left insert_record records positions !! name = positions !! name.
Proof.
  induction records as [|[n sq] records IH]; intros positions Hname; [reflexivity|].
  simpl in Hname |- *. apply not_elem_of_cons in Hname as [Hne Hname].
  rewrite IH by assumption. unfold insert_record. simpl.
  now rewrite lookup_insert_ne.
Qed.

Lemma fold_dom (records : list (string * string)) :
  forall positions : gmap string (gset Z * gset Z),
    dom (fold_left insert_record records positions)
    = dom positions ∪ list_to_set records.*1.
Proof.
  induction records as [|[n sq] records IH]; intros positions; simpl.
  - set_solver.
  - rewrite IH. unfold insert_record. simpl. rewrite dom_insert_L. set_solver.
Qed.

(** The entry of a contig is computed from its last record. *)
Lemma build_lookup (pre post : list (string * string)) (name sequence : string) :
  name ∉ post.*1 ->
  build_reference_idx (pre ++ (name, sequence) :: post) motif rel_idx !! name
  = Some (contig_positions sequence motif rel_idx).
Proof.
  intros Hname. unfold build_reference_idx.
  rewrite fold_left_app. simpl.
  rewrite (fold_other post name _ Hname). simpl.
  apply lookup_insert_eq.
Qed.

Lemma build_dom (records : list (string * string)) :
  dom (build_reference_idx records motif rel_idx) = list_to_set records.*1.
Proof.
  unfold build_reference_idx.
  rewrite (fold_dom records ∅). set_solver.
Qed.

End Dictionary.

Section Claims.

(** C3: every contig of the input is a key of the result, and the entry
    of a contig (that of its last record, should a name repeat) is a pair
    of sets: the forward set holds exactly [matchStart + relIdx] over the
    matches that [re.finditer] reports in the sequence, the reverse set
    exactly [L - (matchStart + relIdx) - 1] over those it reports in the
    reverse complement, and a scan without match leaves an empty set.
    Each reported match is an occurrence of the motif. *)
Theorem build_reference_idx_positions
    (records : list (string * string)) (motif : list item) (rel_idx : Z) :
  dom (build_reference_idx records motif rel_idx) = list_to_set records.*1 /\
  (forall pre name sequence post,
     records = pre ++ (name, sequence) :: post ->
     name ∉ post.*1 ->
     exists fwd_pos rev_pos : gset Z,
       build_reference_idx records motif rel_idx !! name = Some (fwd_pos, rev_pos) /\
       (forall p, p ∈ fwd_pos <->
          exists start, start ∈ finditer motif sequence /\ p = start + rel_idx) /\
       (forall p, p ∈ rev_pos <->
          exists start,
            start ∈ finditer motif (reverse_complement sequence) /\
            p = Z.of_nat (String.length sequence) - (start + rel_idx) - 1) /\
       (finditer motif sequence = [] -> fwd_pos = ∅) /\
       (finditer motif (reverse_complement sequence) = [] -> rev_pos = ∅)) /\
  (forall text start,
     start ∈ finditer motif text ->
     0 <= start /\ occurs_at motif text (Z.to_nat start) = true).
Proof.
  split; [apply build_dom|]. split; [|apply finditer_occurs].
  intros pre name sequence post -> Hname.
  eexists _, _. split; [now apply build_lookup|].
  split; [|split; [|split]].
  - intros p. rewrite elem_of_list_to_set, list_elem_of_fmap. naive_solver.
  - intros p. rewrite elem_of_list_to_set, list_elem_of_fmap. naive_solver.
  - intros ->. reflexivity.
  - intros ->. reflexivity.
Qed.

(** A motif that overlaps itself: the occurrence inside a reported match
    is not recorded, on either strand. *)
Lemma build_reference_idx_overlap_counterexample :
  occurs_at [Lit "A"; Lit "A"] "AAA" 0 = true /\
  occurs_at [Lit "A"; Lit "A"] "AAA" 1 = true /\
  build_reference_idx [("ctg"%string, "AAA"%string)] [Lit "A"; Lit "A"] 0
    !! "ctg"%string = Some ({[0]}, ∅) /\
  occurs_at [Lit "A"; Lit "A"] (reverse_complement "TTT") 1 = true /\
  build_reference_idx [("ctg"%string, "TTT"%string)] [Lit "A"; Lit "A"] 0
    !! "ctg"%string = Some (∅, {[2]}).
Proof. repeat split. Qed.

(** C1, as the code has it: the scan is that of [re.finditer], which
    resumes after the end of each match.  Every occurrence of the motif
    is reported or begins inside a reported match, at most
    [len(motif) - 1] characters after its start; the position of that
    reported match is in the set of the strand.  Reported matches do not
    overlap, so an occurrence that overlaps an earlier reported match is
    not recorded. *)
Theorem build_reference_idx_scan
    (records pre post : list (string * string)) (name sequence : string)
    (motif : list item) (rel_idx : Z) :
  records = pre ++ (name, sequence) :: post ->
  name ∉ post.*1 ->
  exists fwd_pos rev_pos : gset Z,
    build_reference_idx records motif rel_idx !! name = Some (fwd_pos, rev_pos) /\
    (forall p : nat,
       occurs_at motif sequence p = true ->
       exists start,
         start ∈ finditer motif sequence /\
         start <= Z.of_nat p <= start + Z.of_nat (length motif - 1) /\
         start + rel_idx ∈ fwd_pos) /\
    (forall p : nat,
       occurs_at motif (reverse_complement sequence) p = true ->
       exists start,
         start ∈ finditer motif (reverse_complement sequence) /\
         start <= Z.of_nat p <= start + Z.of_nat (length motif - 1) /\
         Z.of_nat (String.length sequence) - (start + rel_idx) - 1 ∈ rev_pos) /\
    StronglySorted (fun x y => x < y /\ x + Z.of_nat (length motif) <= y)
      (finditer motif sequence) /\
    StronglySorted (fun x y => x < y /\ x + Z.of_nat (length motif) <= y)
      (finditer motif (reverse_complement sequence)).
Proof.
  intros -> Hname.
  eexists _, _. split; [now apply build_lookup|].
  split; [|split; [|split; apply finditer_from_apart]].
  - intros p (start & Hstart & Hnear)%occurs_covered.
    exists start. repeat split; try (assumption || lia).
    apply elem_of_list_to_set, list_elem_of_fmap. eauto.
  - intros p (start & Hstart & Hnear)%occurs_covered.
    exists start. repeat split; try (assumption || lia).
    apply elem_of_list_to_set, list_elem_of_fmap. eauto.
Qed.

Lemma build_reference_idx_scan_witness :
  ("chr1"%string ∉ ([] : list (string * string)).*1) /\
  exists fwd_pos rev_pos : gset Z,
    build_reference_idx [("chr1"%string, "ACGTACGA"%string)]
      [Lit "A"; Lit "C"; Lit "G"; Class ["A"; "T"]%char] 0
      !! "chr1"%string = Some (fwd_pos, rev_pos) /\
    0 ∈ fwd_pos.
Proof.
  assert (Hname : "chr1"%string ∉ ([] : list (string * string)).*1)
    by (simpl; apply not_elem_of_nil).
  split; [exact Hname|].
  destruct (build_reference_idx_scan
              [("chr1"%string, "ACGTACGA"%string)] [] [] "chr1" "ACGTACGA"
              [Lit "A"; Lit "C"; Lit "G"; Class ["A"; "T"]%char] 0
              eq_refl Hname)
    as (fwd_pos & rev_pos & Hlookup & Hfwd & _).
  exists fwd_pos, rev_pos. split; [exact Hlookup|].
  destruct (Hfwd 0%nat eq_refl) as (start & [Hpos _]%finditer_occurs & Hnear & Hin).
  replace start with 0 in Hin by lia. exact Hin.
Defined.

(** The spec's examples: [ACGT] in [ACGTACGT], and an asymmetric motif. *)
Example palindromic_motif :
  build_reference_idx [("chr1"%string, "ACGTACGT"%string)]
    [Lit "A"; Lit "C"; Lit "G"; Lit "T"] 0
  !! "chr1"%string = Some ({[0; 4]}, {[3; 7]}).
Proof. reflexivity. Qed.

(** Uracil is complemented to adenine. *)
Example uracil_contig :
  contig_positions "ACGU" [Lit "A"; Lit "C"; Lit "G"; Lit "T"] 0 = (∅, {[3]}).
Proof. reflexivity. Qed.

Example asymmetric_motif :
  build_reference_idx [("chr1"%string, "ACGAttcgt"%string); ("chr2"%string, "GGGG"%string)]
    [Lit "a"; Lit "C"; Lit "G"; Lit "A"] 3
  = {[ "chr1"%string := ({[3]}, {[5]}); "chr2"%string := (∅, ∅) ]}.
Proof. reflexivity. Qed.

End Claims.
End utils_facts.

(** ** Further properties of [reference_to_query] *)

Module alignment_more.
Import alignment alignment_facts.

Section Overrun.

(** An assignment past the last cell of a table without free cell. *)
Lemma setitem_full (st : state) (ws : list Z) (idx v : Z) :
  ref_to_query st = Some <$> ws ->
  idx = Z.of_nat (length ws) ->
  setitem st idx v = Raises IndexError.
Proof.
  intros Htbl ->. unfold setitem. rewrite Htbl, length_fmap.
  destruct (Z.ltb_spec (Z.of_nat (length ws)) (Z.of_nat (length ws))); [lia|].
  destruct (Z.ltb_spec (Z.of_nat (length ws)) 0); [lia|].
  now rewrite !andb_false_r.
Qed.

(** An inner loop that needs more cells than are free. *)
Lemma fill_loop_overrun (r : Z) (f : Z -> Z) (m : nat) :
  forall (j : nat) (st : state) (ws : list Z) (k : nat),
    ref_to_query st = (Some <$> ws) ++ replicate k None ->
    Z.of_nat (length ws) = r + Z.of_nat j ->
    (k < m)%nat ->
    for_each (fun s i => setitem s (r + i) (f i)) (Z.of_nat <$> seq j m) st
    = Raises IndexError.
Proof.
  induction m as [|m IH]; intros j st ws k Htbl Hlen Hk; [lia|].
  cbn [seq fmap list_fmap for_each]. destruct k as [|k].
  - simpl in Htbl. rewrite app_nil_r in Htbl.
    rewrite (setitem_full st ws _ _ Htbl) by lia. reflexivity.
  - rewrite (setitem_fill st ws k _ _ Htbl) by lia.
    cbn [mbind outcome_bind].
    eapply IH; simpl; [reflexivity | rewrite length_app; simpl; lia | lia].
Qed.

(** The loop over operations that consume more than the free cells. *)
Lemma cigar_loop_overrun (ops : list (Z * Z)) :
  forall (st : state) (ws : list Z) (k : nat),
    Forall well_formed_op ops ->
    ref_to_query st = (Some <$> ws) ++ replicate k None ->
    Z.of_nat (length ws) = rpos st ->
    Z.of_nat k < ref_consumed ops ->
    for_each cigar_step ops st = Raises IndexError.
Proof.
  induction ops as [|[l op] ops IH]; intros st ws k Hwf Htbl Hlen Hk;
    [simpl in Hk; lia|].
  inversion Hwf as [|? ? [Hl Hop] Hwf']; subst. simpl in Hl, Hop.
  destruct (is_match op || is_deletion op) eqn:Hc.
  - destruct (Z.ltb_spec (Z.of_nat k) l) as [Hover|Hfits].
    + assert (Hstep : cigar_step st (l, op) = Raises IndexError).
      { unfold cigar_step, range.
        destruct (is_match op) eqn:Hm.
        - rewrite (fill_loop_overrun (rpos st) (fun i => qpos st + i)
                     (Z.to_nat l) 0 st ws k Htbl) by lia. reflexivity.
        - simpl in Hc. rewrite (deletion_not_insertion op Hc), Hc.
          rewrite (fill_loop_overrun (rpos st) (fun _ => qpos st)
                     (Z.to_nat l) 0 st ws k Htbl) by lia. reflexivity. }
      cbn [for_each]. now rewrite Hstep.
    + rewrite <- (Nat.sub_add (Z.to_nat l) k) in Htbl by lia.
      rewrite (Nat.add_comm _ (Z.to_nat l)) in Htbl.
      replace (Z.to_nat l) with (Z.to_nat (ref_consumed [(l, op)])) in Htbl
        by (simpl; rewrite Hc; f_equal; lia).
      cbn [for_each].
      pose proof (cigar_loop [(l, op)] st ws _ ltac:(repeat constructor; assumption)
                    Htbl Hlen) as Hone.
      assert (Hblock : length (starts [(l, op)] (qpos st)) = Z.to_nat l).
      { rewrite length_starts by (repeat constructor; assumption).
        simpl. rewrite Hc. f_equal. lia. }
      set (block := starts [(l, op)] (qpos st)) in Hone, Hblock.
      assert (Hadv : ref_consumed [(l, op)] = l) by (simpl; rewrite Hc; lia).
      rewrite Hadv in Hone.
      cbn [for_each] in Hone.
      destruct (cigar_step st (l, op)) as [st1|e]; [|discriminate Hone].
      cbn [mbind outcome_bind] in Hone |- *. injection Hone as ->.
      eapply IH; [assumption | cbn [ref_to_query]; reflexivity | |].
      * cbn [rpos]. rewrite length_app, length_fmap, Hblock. lia.
      * simpl in Hk. rewrite Hc in Hk. lia.
  - assert (Hi : is_insertion op = true).
    { unfold supported in Hop. apply orb_false_elim in Hc as [Hm Hd].
      now rewrite Hm, Hd, orb_false_r in Hop. }
    assert (Hstep : cigar_step st (l, op)
                    = Returns {| ref_to_query := ref_to_query st; rpos := rpos st;
                                 qpos := qpos st + l; written := written st |}).
    { unfold cigar_step. now rewrite (insertion_not_match op Hi), Hi. }
    cbn [for_each]. rewrite Hstep. cbn [mbind outcome_bind].
    eapply IH; [assumption | exact Htbl | exact Hlen |].
    simpl in Hk. rewrite Hc in Hk. lia.
Qed.

(** X1: a CIGAR whose match, mismatch and deletion lengths sum to more
    than the declared reference span never yields a table: the first
    assignment past the last cell raises [IndexError]. *)
Theorem reference_to_query_overrun (a : Alignment) :
  Forall well_formed_op (cigar a) ->
  -1 <= r_en a - r_st a < ref_consumed (cigar a) ->
  reference_to_query a = Raises IndexError.
Proof.
  intros Hwf Hspan.
  pose proof (well_formed_order a Hwf) as Hwf'.
  rewrite <- ref_consumed_order in Hspan.
  unfold reference_to_query, run_reference_to_query, np_empty.
  destruct (Z.ltb_spec (r_en a - r_st a + 1) 0) as [Hneg|_]; [lia|].
  cbn [mbind outcome_bind].
  destruct (Z.eq_dec (ref_consumed (cigar_order a)) (r_en a - r_st a + 1)) as [Heq|Hne].
  - erewrite (cigar_loop (cigar_order a) _ [] 0 Hwf');
      [| simpl; rewrite Heq; f_equal; lia | reflexivity].
    cbn [mbind outcome_bind].
    erewrite (setitem_full _ (uint32 <$> starts (cigar_order a) (q_st a)));
      [reflexivity | simpl; now rewrite app_nil_r |].
    simpl. rewrite length_fmap, length_starts by assumption. lia.
  - erewrite (cigar_loop_overrun (cigar_order a) _ []
                (Z.to_nat (r_en a - r_st a + 1)) Hwf');
      [reflexivity | reflexivity | reflexivity | lia].
Qed.

Lemma reference_to_query_overrun_witness :
  reference_to_query
    {| r_st := 0; r_en := 2; q_st := 0; strand := 1; cigar := [(2, 0); (3, 2)] |}
  = Raises IndexError.
Proof.
  apply reference_to_query_overrun.
  - repeat constructor; simpl; lia.
  - simpl. lia.
Defined.

End Overrun.

Section Underrun.

(** X2: a CIGAR whose match, mismatch and deletion lengths sum to less
    than the declared reference span raises nothing: the table comes back
    with its first [consumed + 1] cells written and every later cell as
    [np.empty] allocated it. *)
Theorem reference_to_query_underrun (a : Alignment) :
  Forall well_formed_op (cigar a) ->
  ref_consumed (cigar a) < r_en a - r_st a ->
  exists t : list (option Z),
    reference_to_query a = Returns t /\
    length t = Z.to_nat (r_en a - r_st a + 1) /\
    (forall i, 0 <= i <= ref_consumed (cigar a) -> exists v, t !! Z.to_nat i = Some (Some v)) /\
    (forall i, ref_consumed (cigar a) < i <= r_en a - r_st a -> t !! Z.to_nat i = Some None).
Proof.
  intros Hwf Hspan.
  pose proof (well_formed_order a Hwf) as Hwf'.
  pose proof (ref_consumed_nonneg _ Hwf) as Hnn.
  assert (Hfilled : length (Some <$> (uint32 <$> table (cigar_order a) (q_st a)))
                    = Z.to_nat (ref_consumed (cigar a) + 1)).
  { rewrite !length_fmap, length_table, ref_consumed_order by assumption. reflexivity. }
  eexists. split; [apply run_below_span; [assumption | lia]|].
  split; [|split].
  - rewrite length_app, Hfilled, length_replicate. lia.
  - intros i Hi.
    destruct (lookup_lt_is_Some_2 (Some <$> (uint32 <$> table (cigar_order a) (q_st a)))
                (Z.to_nat i) ltac:(rewrite Hfilled; lia)) as [c Hc].
    rewrite lookup_app_l by (rewrite Hfilled; lia). rewrite Hc.
    apply list_lookup_fmap_Some in Hc as (v & -> & _). now exists v.
  - intros i Hi. rewrite lookup_app_r by (rewrite Hfilled; lia).
    apply lookup_replicate_2. rewrite Hfilled. lia.
Qed.

Lemma reference_to_query_underrun_witness :
  exists t : list (option Z),
    reference_to_query
      {| r_st := 0; r_en := 4; q_st := 7; strand := 1; cigar := [(2, 0)] |}
    = Returns t /\
    t !! 3%nat = Some None.
Proof.
  destruct (reference_to_query_underrun
              {| r_st := 0; r_en := 4; q_st := 7; strand := 1; cigar := [(2, 0)] |})
    as (t & Ht & _ & _ & Hfree).
  - repeat constructor; simpl; lia.
  - simpl. lia.
  - exists t. split; [exact Ht|]. apply (Hfree 3). simpl. lia.
Defined.

End Underrun.

Section Ends.

(** X3: with the declared span consumed exactly, operations of positive
    length and coordinates within 32 bits, the first entry of the table is
    the query start plus the insertions that open the alignment, the last
    entry is the exclusive end [q_st] plus all query bases consumed, and
    every entry lies between [q_st] and that end. *)
Theorem reference_to_query_ends (a : Alignment) :
  Forall positive_op (cigar a) ->
  0 <= q_st a ->
  q_st a + query_consumed (cigar a) < 2 ^ 32 ->
  ref_consumed (cigar a) = r_en a - r_st a ->
  exists t : list Z,
    reference_to_query a = Returns (Some <$> t) /\
    t !! 0%nat = Some (q_st a + leading_insertion (cigar_order a)) /\
    last t = Some (q_st a + query_consumed (cigar a)) /\
    Forall (fun x => q_st a <= x <= q_st a + query_consumed (cigar a)) t.
Proof.
  intros Hpos Hq Hfit Hspan.
  pose proof (positive_well_formed _ Hpos) as Hwf.
  pose proof (well_formed_order a Hwf) as Hwf'.
  pose proof (query_consumed_nonneg _ Hwf') as Hnn.
  rewrite <- query_consumed_order in Hfit |- *.
  exists (table (cigar_order a) (q_st a)). split; [|split; [|split]].
  - unfold reference_to_query. rewrite run_in_span by assumption.
    cbn [fmap outcome_fmap ref_to_query].
    fold (table (cigar_order a) (q_st a)).
    now rewrite uint32_table by assumption.
  - apply table_head. now apply positive_order.
  - unfold table. now rewrite last_snoc.
  - unfold table. apply Forall_app. split; [now apply starts_bounds|].
    constructor; [lia | constructor].
Qed.

Lemma reference_to_query_ends_witness :
  exists t : list Z,
    reference_to_query
      {| r_st := 5; r_en := 8; q_st := 2; strand := -1;
         cigar := [(3, 0); (4, 1)] |} = Returns (Some <$> t) /\
    t !! 0%nat = Some 6 /\ last t = Some 9.
Proof.
  destruct (reference_to_query_ends
              {| r_st := 5; r_en := 8; q_st := 2; strand := -1;
                 cigar := [(3, 0); (4, 1)] |})
    as (t & Ht & Hfirst & Hlast & _).
  - repeat constructor.
  - simpl. lia.
  - simpl. lia.
  - reflexivity.
  - exists t. split; [exact Ht|]. split; [exact Hfirst | exact Hlast].
Defined.

End Ends.

Section Diagonal.

Definition match_op (lop : Z * Z) : Prop := 0 <= lop.1 /\ is_match lop.2 = true.

Lemma range_app (l m : Z) :
  0 <= l -> 0 <= m ->
  range (l + m) = range l ++ ((fun i => l + i) <$> range m).
Proof.
  intros Hl Hm. unfold range.
  rewrite Z2Nat.inj_add, seq_app, fmap_app by lia. f_equal.
  replace (0 + Z.to_nat l)%nat with (Z.to_nat l + 0)%nat by lia.
  rewrite <- fmap_add_seq, <- !list_fmap_compose.
  apply list_fmap_ext. intros _ i _. simpl. lia.
Qed.

Lemma match_well_formed (ops : list (Z * Z)) :
  Forall match_op ops -> Forall well_formed_op ops.
Proof.
  intros H. eapply Forall_impl; [exact H|].
  intros [l op] [Hl Hop]. split; simpl in *; [lia|].
  unfold supported. now rewrite Hop.
Qed.

Lemma starts_all_match (ops : list (Z * Z)) :
  forall q, Forall match_op ops ->
    starts ops q = (fun i => q + i) <$> range (ref_consumed ops) /\
    query_consumed ops = ref_consumed ops.
Proof.
  induction ops as [|[l op] ops IH]; intros q Hall; [now split|].
  inversion Hall as [|? ? [Hl Hop] Hall']; subst. simpl in Hl, Hop.
  pose proof (ref_consumed_nonneg ops (match_well_formed ops Hall')) as Hnn.
  destruct (IH (q + l) Hall') as [Hstarts Hquery].
  simpl. rewrite Hop. simpl. split; [|lia].
  rewrite Hstarts, range_app, fmap_app by lia. f_equal.
  rewrite <- list_fmap_compose. apply list_fmap_ext. intros _ i _. simpl. lia.
Qed.

(** X4: when every operation is a match or mismatch and their lengths
    sum to the declared span, the table is the diagonal
    [q_st, q_st + 1, ..., q_st + span], on either strand. *)
Theorem reference_to_query_all_match (a : Alignment) :
  Forall match_op (cigar a) ->
  0 <= q_st a ->
  q_st a + (r_en a - r_st a) < 2 ^ 32 ->
  ref_consumed (cigar a) = r_en a - r_st a ->
  reference_to_query a
  = Returns (Some <$> ((fun i => q_st a + i) <$> range (r_en a - r_st a + 1))).
Proof.
  intros Hall Hq Hfit Hspan.
  pose proof (match_well_formed _ Hall) as Hwf.
  pose proof (well_formed_order a Hwf) as Hwf'.
  pose proof (ref_consumed_nonneg _ Hwf) as Hnn.
  assert (Hall' : Forall match_op (cigar_order a)).
  { unfold cigar_order. destruct (strand a =? 1); [assumption|].
    rewrite rev_alt. now apply Forall_reverse. }
  destruct (starts_all_match (cigar_order a) (q_st a) Hall') as [Hstarts Hquery].
  rewrite ref_consumed_order, Hspan in Hstarts, Hquery.
  unfold reference_to_query. rewrite run_in_span by assumption.
  cbn [fmap outcome_fmap ref_to_query].
  fold (table (cigar_order a) (q_st a)).
  rewrite uint32_table by (assumption || lia).
  unfold table. rewrite Hstarts, Hquery.
  rewrite range_app by lia. rewrite !fmap_app.
  change (range 1) with [0]. cbn [fmap list_fmap].
  now rewrite Z.add_0_r.
Qed.

Lemma reference_to_query_all_match_witness :
  reference_to_query
    {| r_st := 100; r_en := 103; q_st := 20; strand := -1;
       cigar := [(1, 7); (2, 8)] |}
  = Returns [Some 20; Some 21; Some 22; Some 23].
Proof.
  apply (reference_to_query_all_match
           {| r_st := 100; r_en := 103; q_st := 20; strand := -1;
              cigar := [(1, 7); (2, 8)] |}).
  - repeat constructor; simpl; lia.
  - simpl. lia.
  - simpl. lia.
  - reflexivity.
Defined.

End Diagonal.

Section Chaining.

(** X5: tables of consecutive segments chain.  On the forward strand, the
    table of the operations [c1 ++ c2] is the table of [c1] without its
    closing entry, followed by the table of [c2] taken where [c1] ends on
    the reference and on the query. *)
Theorem reference_to_query_chain (r q : Z) (c1 c2 : list (Z * Z)) :
  Forall well_formed_op c1 ->
  Forall well_formed_op c2 ->
  exists (t1 t2 : list (option Z)) (e : option Z),
    reference_to_query
      {| r_st := r; r_en := r + ref_consumed c1; q_st := q; strand := 1;
         cigar := c1 |} = Returns (t1 ++ [e]) /\
    reference_to_query
      {| r_st := r + ref_consumed c1; r_en := r + ref_consumed c1 + ref_consumed c2;
         q_st := q + query_consumed c1; strand := 1; cigar := c2 |} = Returns t2 /\
    reference_to_query
      {| r_st := r; r_en := r + ref_consumed c1 + ref_consumed c2; q_st := q;
         strand := 1; cigar := c1 ++ c2 |} = Returns (t1 ++ t2) /\
    length t1 = Z.to_nat (ref_consumed c1).
Proof.
  intros Hwf1 Hwf2.
  assert (Hwf : Forall well_formed_op (c1 ++ c2)) by (apply Forall_app; now split).
  exists (Some <$> (uint32 <$> starts c1 q)),
         (Some <$> (uint32 <$> table c2 (q + query_consumed c1))),
         (Some (uint32 (q + query_consumed c1))).
  unfold reference_to_query.
  rewrite !run_in_span by (cbn [cigar r_st r_en]; rewrite ?ref_consumed_app; (assumption || lia)).
  cbn [fmap outcome_fmap ref_to_query cigar_order strand q_st cigar Z.eqb Pos.eqb].
  split; [|split; [|split]].
  - now rewrite !fmap_app.
  - reflexivity.
  - fold (table (c1 ++ c2) q). now rewrite table_split, !fmap_app.
  - now rewrite !length_fmap, length_starts.
Qed.

Lemma reference_to_query_chain_witness :
  exists (t1 t2 : list (option Z)) (e : option Z),
    reference_to_query
      {| r_st := 0; r_en := 0 + 2; q_st := 5; strand := 1; cigar := [(2, 0)] |}
      = Returns (t1 ++ [e]) /\
    reference_to_query
      {| r_st := 0; r_en := 0 + 2 + 1; q_st := 5; strand := 1;
         cigar := [(2, 0)] ++ [(3, 1); (1, 2)] |} = Returns (t1 ++ t2).
Proof.
  destruct (reference_to_query_chain 0 5 [(2, 0)] [(3, 1); (1, 2)])
    as (t1 & t2 & e & H1 & _ & H12 & _).
  - repeat constructor; simpl; lia.
  - repeat constructor; simpl; lia.
  - exists t1, t2, e. split; [exact H1 | exact H12].
Defined.

End Chaining.
End alignment_more.

(** ** Further properties of [sequence_to_signal], [parse_fastq] and [normalize_mad] *)

Module fast5_more.
Import fast5 fast5_facts.

Section Signal.

Lemma nonzero_from_shift (a : list Z) :
  forall i, nonzero_from i a = (fun x => x + i) <$> nonzero_from 0 a.
Proof.
  induction a as [|m a IH]; intros i; [reflexivity|]. simpl.
  rewrite (IH (i + 1)), (IH (0 + 1)).
  destruct (m =? 0); simpl; rewrite <- list_fmap_compose;
    [|f_equal]; apply list_fmap_ext; intros _ x _; simpl; lia.
Qed.

Lemma nonzero_from_bounds (a : list Z) :
  forall i, Forall (fun x => i <= x < i + Z.of_nat (length a)) (nonzero_from i a).
Proof.
  intros i. apply Forall_forall. intros x (k & m & Hk & _ & ->)%nonzero_from_elem.
  apply lookup_lt_Some in Hk. lia.
Qed.

Lemma StronglySorted_scale (stride start : Z) (l : list Z) :
  0 < stride ->
  StronglySorted Z.lt l ->
  StronglySorted Z.lt ((fun i => i * stride + start) <$> l).
Proof.
  intros Hs. induction 1 as [|x l Hl IH Hx]; simpl; constructor; [assumption|].
  apply Forall_fmap. eapply Forall_impl; [exact Hx|]. simpl. intros y Hy. nia.
Qed.

(** X6: with a positive block stride, and a stride, a start index and a
    closing entry [raw_start_idx + len(move_table) * block_stride] that fit
    NumPy's 64-bit integers, the signal indices are strictly increasing,
    each lies between the raw start index and the closing entry, and each
    is the raw start index plus a whole number of strides; this holds for
    any content of the move table. *)
Theorem sequence_to_signal_increasing
    (move_table : list Z) (raw_start_idx block_stride : Z) :
  0 < block_stride ->
  int64_range block_stride ->
  int64_range raw_start_idx ->
  int64_range (Z.of_nat (length move_table) * block_stride + raw_start_idx) ->
  exists v : list Z,
    sequence_to_signal move_table raw_start_idx block_stride = Returns v /\
    StronglySorted Z.lt v /\
    Forall (fun x => raw_start_idx <= x
                     <= raw_start_idx + Z.of_nat (length move_table) * block_stride) v /\
    Forall (fun x => (x - raw_start_idx) mod block_stride = 0) v.
Proof.
  intros Hpos Hb Hs Hend. eexists.
  split; [now apply sequence_to_signal_exact|]. split; [|split].
  - apply StronglySorted_scale; [assumption | apply nonzero_from_ascending].
  - apply Forall_fmap. eapply Forall_impl; [apply nonzero_from_bounds|].
    simpl. intros x Hx. rewrite length_app in Hx. simpl in Hx. nia.
  - apply Forall_fmap, Forall_forall. intros x _. simpl.
    replace (x * block_stride + raw_start_idx - raw_start_idx)
      with (x * block_stride) by lia.
    apply Z.mod_mul. lia.
Qed.

Lemma sequence_to_signal_increasing_witness :
  exists v : list Z,
    sequence_to_signal [1; 0; 3; 0] 100 5 = Returns v /\ StronglySorted Z.lt v.
Proof.
  destruct (sequence_to_signal_increasing [1; 0; 3; 0] 100 5)
    as (v & Hv & Hsorted & _); try (unfold int64_range; simpl; lia).
  exists v. split; [exact Hv | exact Hsorted].
Defined.

(** Number of entries of a move table that are not 0. *)
Definition count_moves (move_table : list Z) : nat :=
  length (filter (fun m => m <> 0) move_table).

Lemma nonzero_from_length (a : list Z) :
  forall i, length (nonzero_from i a) = count_moves a.
Proof.
  unfold count_moves.
  induction a as [|m a IH]; intros i; [reflexivity|]. simpl.
  rewrite filter_cons. destruct (Z.eqb_spec m 0) as [->|Hm].
  - rewrite decide_False by tauto. apply IH.
  - rewrite decide_True by assumption. simpl. f_equal. apply IH.
Qed.

(** X7: whatever the entries of the move table, for a stride and a
    start index that fit NumPy's 64-bit integers the result has one entry
    per non-zero entry plus the closing one, so it is never empty; a move
    table without any move gives the closing entry alone,
    [len(move_table) * block_stride + raw_start_idx] reduced to 64 bits. *)
Theorem sequence_to_signal_length
    (move_table : list Z) (raw_start_idx block_stride : Z) :
  int64_range block_stride ->
  int64_range raw_start_idx ->
  exists v : list Z,
    sequence_to_signal move_table raw_start_idx block_stride = Returns v /\
    length v = S (count_moves move_table) /\
    (count_moves move_table = 0%nat ->
     v = [int64 (Z.of_nat (length move_table) * block_stride + raw_start_idx)]).
Proof.
  intros Hb Hs. eexists. split; [now apply sequence_to_signal_fits|].
  unfold nonzero; rewrite nonzero_from_app.
  change (nonzero_from (0 + Z.of_nat (length move_table)) [1])
    with [0 + Z.of_nat (length move_table)].
  split.
  - rewrite length_fmap, length_app, nonzero_from_length. simpl. lia.
  - intros Hnone. rewrite <- (nonzero_from_length move_table 0) in Hnone.
    apply nil_length_inv in Hnone. rewrite Hnone. reflexivity.
Qed.

Lemma sequence_to_signal_length_witness :
  exists v : list Z,
    sequence_to_signal [0; 0; 0] 7 4 = Returns v /\ v = [int64 (3 * 4 + 7)].
Proof.
  destruct (sequence_to_signal_length [0; 0; 0] 7 4)
    as (v & Hv & _ & Hnone); try (unfold int64_range; lia).
  exists v. split; [exact Hv | exact (Hnone eq_refl)].
Defined.

(** X8: move tables chain.  For a stride, a start index and a start index
    moved past the blocks of [m1] that fit NumPy's 64-bit integers, the
    result for [m1 ++ m2] is the result for [m1] without its closing
    entry, followed by the result for [m2] taken from the moved start
    index. *)
Theorem sequence_to_signal_chain
    (m1 m2 : list Z) (raw_start_idx block_stride : Z) :
  int64_range block_stride ->
  int64_range raw_start_idx ->
  int64_range (raw_start_idx + Z.of_nat (length m1) * block_stride) ->
  exists v1 v2 : list Z,
    sequence_to_signal m1 raw_start_idx block_stride
      = Returns (v1 ++ [Z.of_nat (length m1) * block_stride + raw_start_idx]) /\
    sequence_to_signal m2
        (raw_start_idx + Z.of_nat (length m1) * block_stride) block_stride
      = Returns v2 /\
    sequence_to_signal (m1 ++ m2) raw_start_idx block_stride = Returns (v1 ++ v2).
Proof.
  intros Hb Hs Hmid.
  exists ((fun i => int64 (i * block_stride + raw_start_idx)) <$> nonzero_from 0 m1).
  eexists. rewrite !sequence_to_signal_fits by assumption. unfold nonzero.
  split; [|split; [reflexivity|]].
  - rewrite nonzero_from_app.
    change (nonzero_from (0 + Z.of_nat (length m1)) [1]) with [0 + Z.of_nat (length m1)].
    rewrite fmap_snoc. do 3 f_equal. rewrite Z.add_0_l. apply int64_small.
    now replace (Z.of_nat (length m1) * block_stride + raw_start_idx)
      with (raw_start_idx + Z.of_nat (length m1) * block_stride) by lia.
  - rewrite <- app_assoc, nonzero_from_app, fmap_app. do 2 f_equal.
    rewrite (nonzero_from_shift (m2 ++ [1]) (0 + _)), <- list_fmap_compose.
    apply list_fmap_ext. intros _ x _. simpl. f_equal. lia.
Qed.

Lemma sequence_to_signal_chain_witness :
  exists v1 v2 : list Z,
    sequence_to_signal [1; 0] 5 10 = Returns (v1 ++ [Z.of_nat 2 * 10 + 5]) /\
    sequence_to_signal ([1; 0] ++ [0; 1]) 5 10 = Returns (v1 ++ v2).
Proof.
  destruct (sequence_to_signal_chain [1; 0] [0; 1] 5 10)
    as (v1 & v2 & H1 & _ & H12); try (unfold int64_range; simpl; lia).
  exists v1, v2. split; [exact H1 | exact H12].
Defined.

End Signal.

Section Fastq.

(** Number of newline characters of a text. *)
Fixpoint count_newlines (s : string) : nat :=
  match s with
  | EmptyString => 0
  | String c s' => (if Ascii.eqb c newline then 1 else 0) + count_newlines s'
  end.

(** A text made of the characters that [str.strip] removes. *)
Fixpoint blank (s : string) : bool :=
  match s with
  | EmptyString => true
  | String c s' => is_space c && blank s'
  end.

Lemma length_split_lines (s : string) :
  length (split_lines s) = S (count_newlines s).
Proof.
  induction s as [|c s IH]; [reflexivity|]. simpl.
  destruct (Ascii.eqb c newline); simpl; [now rewrite IH|].
  destruct (split_lines s); simpl in *; congruence.
Qed.

(** X9: a record with fewer than four lines, that is, whose text once
    stripped holds fewer than three newline characters, raises
    [IndexError]. *)
Theorem parse_fastq_too_short (fastq : string) :
  (count_newlines (strip fastq) < 3)%nat ->
  parse_fastq fastq = Raises IndexError.
Proof.
  intros Hshort. unfold parse_fastq.
  pose proof (length_split_lines (strip fastq)) as Hlen.
  destruct (split_lines (strip fastq)) as [|l0 [|l1 [|l2 [|l3 rest]]]];
    simpl in Hlen; try reflexivity; lia.
Qed.

Lemma parse_fastq_too_short_witness :
  parse_fastq ("@read" +:+ String newline "ACGT" +:+ String newline "+")
  = Raises IndexError.
Proof. apply parse_fastq_too_short. simpl. lia. Defined.

Lemma existsb_negative (shp : list Z) :
  existsb (fun d => d <? 0) shp = false <-> Forall (fun d => 0 <= d) shp.
Proof.
  induction shp as [|d shp IH]; simpl; [split; [constructor | reflexivity]|].
  rewrite orb_false_iff, IH, Forall_cons, Z.ltb_ge. tauto.
Qed.

(** X10: whenever [parse_fastq] returns, the stripped text has at least
    four lines, the sequence returned is the second one, and the array
    returned has for shape the list of the Phred values of the fourth
    line, none of them negative; its cells, as many as the product of
    these values, were never written. *)
Theorem parse_fastq_returns (fastq sequence : string) (qualities : ndarray) :
  parse_fastq fastq = Returns (sequence, qualities) ->
  exists header plus line rest,
    split_lines (strip fastq) = header :: sequence :: plus :: line :: rest /\
    Forall (fun c => 33 <= ord c) (list_ascii_of_string line) /\
    shape qualities = phred line /\
    length (cells qualities) = Z.to_nat (fold_right Z.mul 1 (phred line)) /\
    Forall (fun cell => cell = None) (cells qualities).
Proof.
  unfold parse_fastq, np_ndarray, NPY_MAXDIMS.
  destruct (split_lines (strip fastq)) as [|l0 [|l1 [|l2 [|l3 rest]]]];
    cbn [getitem lookup list_lookup mbind outcome_bind]; try discriminate.
  change ((fun c => ord c - 33) <$> list_ascii_of_string l3) with (phred l3).
  assert (Hsign : Forall (fun d => 0 <= d) (phred l3)
                  <-> Forall (fun c => 33 <= ord c) (list_ascii_of_string l3)).
  { unfold phred. rewrite Forall_fmap. apply Forall_iff. intros c. simpl. lia. }
  destruct (existsb (fun d => d <? 0) (phred l3)) eqn:Hneg;
    [cbn [mbind outcome_bind]; discriminate|].
  destruct (32 <? length (phred l3))%nat;
    [cbn [mbind outcome_bind]; discriminate|].
  cbn [mbind outcome_bind]. intros [= <- <-].
  exists l0, l2, l3, rest. cbn [shape cells].
  split; [reflexivity|]. split; [now apply Hsign, existsb_negative|].
  split; [reflexivity|]. split; [apply length_replicate|].
  apply Forall_forall. intros cell Hcell. now apply elem_of_replicate in Hcell.
Qed.

Lemma parse_fastq_returns_witness :
  exists header plus line rest,
    split_lines (strip two_base_read) = header :: "AC"%string :: plus :: line :: rest /\
    length (replicate 6 (None : option Z)) = Z.to_nat (fold_right Z.mul 1 (phred line)).
Proof.
  destruct (parse_fastq_returns two_base_read "AC"
              {| shape := [2; 3]; cells := replicate 6 None |} eq_refl)
    as (header & plus & line & rest & Hsplit & _ & _ & Hcells & _).
  exists header, plus, line, rest. split; [exact Hsplit | exact Hcells].
Defined.

Lemma blank_lstrip (ws s : string) :
  blank ws = true -> lstrip (ws +:+ s) = lstrip s.
Proof.
  induction ws as [|c ws IH]; [reflexivity|]. simpl.
  intros [Hc Hws]%andb_true_iff. rewrite Hc. now apply IH.
Qed.

Lemma blank_rstrip_nil (ws : string) :
  blank ws = true -> rstrip ws = EmptyString.
Proof.
  induction ws as [|c ws IH]; [reflexivity|]. simpl.
  intros [Hc Hws]%andb_true_iff. now rewrite (IH Hws), Hc.
Qed.

Lemma blank_rstrip (s ws : string) :
  blank ws = true -> rstrip (s +:+ ws) = rstrip s.
Proof.
  intros Hws. induction s as [|c s IH]; simpl.
  - now apply blank_rstrip_nil.
  - now rewrite IH.
Qed.

Lemma blank_lstrip_nil (ws : string) :
  blank ws = true -> lstrip ws = EmptyString.
Proof.
  induction ws as [|c ws IH]; [reflexivity|]. simpl.
  intros [Hc Hws]%andb_true_iff. rewrite Hc. now apply IH.
Qed.

Lemma blank_strip_r (s ws : string) :
  blank ws = true -> strip (s +:+ ws) = strip s.
Proof.
  intros Hws. unfold strip. induction s as [|c s IH]; simpl.
  - now rewrite blank_lstrip_nil.
  - destruct (is_space c); [exact IH|].
    change (String c (s +:+ ws)) with (String c s +:+ ws).
    now apply blank_rstrip.
Qed.

(** X11: white space around the record does not matter: blanks, tabs and
    line ends before the first line or after the last one leave the result
    as it is. *)
Theorem parse_fastq_surrounding_space (before fastq after : string) :
  blank before = true ->
  blank after = true ->
  parse_fastq (before +:+ fastq +:+ after) = parse_fastq fastq.
Proof.
  intros Hb Ha. unfold parse_fastq.
  replace (strip (before +:+ fastq +:+ after)) with (strip fastq); [reflexivity|].
  unfold strip. rewrite blank_lstrip by assumption.
  symmetry. now apply blank_strip_r.
Qed.

Lemma parse_fastq_surrounding_space_witness :
  parse_fastq (String newline " " +:+ two_base_read +:+ String newline EmptyString)
  = parse_fastq two_base_read.
Proof. apply parse_fastq_surrounding_space; reflexivity. Defined.

End Fastq.

Section NotANumber.

Local Open Scope float_scope.

Lemma SFcompare_refl (p : spec_float) :
  p <> S754_nan -> SFcompare p p = Some Eq.
Proof.
  destruct p as [s|s| |s m e]; intros Hp; try congruence; simpl.
  - reflexivity.
  - now destruct s.
  - destruct s; rewrite Z.compare_refl, ?Pos.compare_cont_refl, ?Pos.compare_refl;
      reflexivity.
Qed.

Lemma is_nan_spec (x : float) : is_nan x = true <-> Prim2SF x = S754_nan.
Proof.
  unfold is_nan. rewrite FloatAxioms.eqb_spec. unfold SFeqb. split.
  - intros Hx. destruct (Prim2SF x) eqn:Hp; try reflexivity;
      rewrite SFcompare_refl in Hx by discriminate; discriminate.
  - intros ->. reflexivity.
Qed.

Lemma sub_nan (x m : float) : is_nan m = true -> is_nan (x - m) = true.
Proof.
  rewrite !is_nan_spec, sub_spec. intros ->. unfold SF64sub.
  now destruct (Prim2SF x).
Qed.

Lemma div_nan (x d : float) : is_nan x = true -> is_nan (x / d) = true.
Proof.
  rewrite !is_nan_spec, div_spec. intros ->. reflexivity.
Qed.

Lemma median_nan (a : list float) :
  Exists (fun x => is_nan x = true) a -> median a = nan.
Proof.
  intros Hex. unfold median. destruct a as [|x a]; [reflexivity|].
  replace (existsb is_nan (x :: a)) with true; [reflexivity|].
  symmetry. apply existsb_exists. apply Exists_exists in Hex as (y & Hy & Hnan).
  exists y. split; [now apply list_elem_of_In | assumption].
Qed.

(** X12: one sample that is not a number spoils the whole result: the
    median is then [nan], and every sample of the output is [nan]. *)
Theorem normalize_mad_nan (signal : list float) (scale_factor : option float) :
  Exists (fun x => is_nan x = true) signal ->
  exists v : list float,
    normalize_mad signal scale_factor = Returns v /\
    length v = length signal /\
    Forall (fun y => is_nan y = true) v.
Proof.
  intros Hex. eexists. split; [reflexivity|]. split; [now rewrite !length_fmap|].
  rewrite (median_nan signal Hex).
  apply Forall_fmap, Forall_fmap, Forall_forall. intros x _. simpl.
  apply div_nan, sub_nan. reflexivity.
Qed.

Lemma normalize_mad_nan_witness :
  exists v : list float,
    normalize_mad [1; nan; 3] None = Returns v /\
    Forall (fun y => is_nan y = true) v.
Proof.
  destruct (normalize_mad_nan [1; nan; 3] None) as (v & Hv & _ & Hnan).
  - apply Exists_cons_tl, Exists_cons_hd. reflexivity.
  - exists v. split; [exact Hv | exact Hnan].
Defined.

End NotANumber.
End fast5_more.

(** ** Further properties of [build_reference_idx] *)

Module utils_more.
Import utils utils_facts.

Section Range.

Lemma match_here_length (motif : list item) :
  forall s, match_here motif s = true -> (length motif <= length s)%nat.
Proof.
  induction motif as [|it motif IH]; intros s Hm; simpl; [lia|].
  destruct s as [|c s]; simpl in Hm; [discriminate|].
  apply andb_true_iff in Hm as [_ Hm]. apply IH in Hm. simpl. lia.
Qed.

(** A reported match lies within the text. *)
Lemma finditer_within (motif : list item) (text : string) (start : Z) :
  start ∈ finditer motif text ->
  0 <= start /\ start + Z.of_nat (length motif) <= Z.of_nat (String.length text).
Proof.
  intros (j & -> & Hj & Hm)%finditer_from_sound.
  apply match_here_length in Hm. rewrite length_drop, length_list_ascii in Hm.
  rewrite length_list_ascii in Hj. lia.
Qed.

Lemma length_reverse_complement (sequence : string) :
  String.length (reverse_complement sequence) = String.length sequence.
Proof.
  unfold reverse_complement.
  rewrite <- length_list_ascii, list_ascii_of_string_of_list_ascii.
  now rewrite length_rev, length_fmap, length_list_ascii.
Qed.

(** X13: when the relative index points inside a match, that is,
    [0 <= rel_idx] and [rel_idx] is less than the number of characters
    that a match covers (the number of items of the motif), every recorded
    position, forward or reverse, is an index of the contig: it lies in
    [0, L). *)
Theorem build_reference_idx_in_range
    (records pre post : list (string * string)) (name sequence : string)
    (motif : list item) (rel_idx : Z) :
  records = pre ++ (name, sequence) :: post ->
  name ∉ post.*1 ->
  0 <= rel_idx < Z.of_nat (length motif) ->
  exists fwd_pos rev_pos : gset Z,
    build_reference_idx records motif rel_idx !! name = Some (fwd_pos, rev_pos) /\
    (forall p, p ∈ fwd_pos -> 0 <= p < Z.of_nat (String.length sequence)) /\
    (forall p, p ∈ rev_pos -> 0 <= p < Z.of_nat (String.length sequence)).
Proof.
  intros -> Hname Hrel.
  eexists _, _. split; [now apply build_lookup|]. split.
  - intros p (start & -> & Hstart)%elem_of_list_to_set%list_elem_of_fmap.
    apply finditer_within in Hstart. lia.
  - intros p (start & -> & Hstart)%elem_of_list_to_set%list_elem_of_fmap.
    apply finditer_within in Hstart. rewrite length_reverse_complement in Hstart. lia.
Qed.

Lemma build_reference_idx_in_range_witness :
  exists fwd_pos rev_pos : gset Z,
    build_reference_idx [("chr1"%string, "ACGTTACG"%string)]
      [Lit "C"; Lit "G"] 1 !! "chr1"%string = Some (fwd_pos, rev_pos) /\
    (forall p, p ∈ fwd_pos -> 0 <= p < 8).
Proof.
  destruct (build_reference_idx_in_range
              [("chr1"%string, "ACGTTACG"%string)] [] [] "chr1" "ACGTTACG"
              [Lit "C"; Lit "G"] 1 eq_refl)
    as (fwd_pos & rev_pos & Hlookup & Hfwd & _).
  - simpl. apply not_elem_of_nil.
  - simpl. lia.
  - exists fwd_pos, rev_pos. split; [exact Hlookup | exact Hfwd].
Defined.

End Range.

Section Strands.

Lemma complement_involutive (c : ascii) :
  c <> "U"%char -> c <> "u"%char -> complement (complement c) = c.
Proof.
  destruct c as [[] [] [] [] [] [] [] []]; intros HU Hu;
    try reflexivity; congruence.
Qed.

Lemma rev_reverse {A} (l : list A) : rev l = reverse l.
Proof. apply rev_alt. Qed.

(** A DNA sequence: no uracil, whose complement is that of thymine. *)
Definition dna (sequence : string) : Prop :=
  Forall (fun c => c <> "U"%char /\ c <> "u"%char) (list_ascii_of_string sequence).

Lemma reverse_complement_involutive (sequence : string) :
  dna sequence ->
  reverse_complement (reverse_complement sequence) = sequence.
Proof.
  intros Hdna. unfold reverse_complement. rewrite list_ascii_of_string_of_list_ascii.
  rewrite !rev_reverse, fmap_reverse, reverse_involutive, <- list_fmap_compose.
  replace (complement ∘ complement <$> list_ascii_of_string sequence)
    with (id <$> list_ascii_of_string sequence).
  - now rewrite list_fmap_id, string_of_list_ascii_of_string.
  - apply Forall_fmap_ext. eapply Forall_impl; [exact Hdna|].
    intros c [HU Hu]. simpl. symmetry. now apply complement_involutive.
Qed.

(** The position of the same base read from the other end of a contig of
    [len] bases. *)
Definition mirror (len p : Z) : Z := len - 1 - p.

(** X14: indexing the reverse complement of a DNA contig mirrors and
    swaps the two sets: its forward set is the mirror image of the contig's
    reverse set, and its reverse set the mirror image of the contig's
    forward set. *)
Theorem contig_positions_reverse_complement
    (sequence : string) (motif : list item) (rel_idx : Z) :
  dna sequence ->
  contig_positions (reverse_complement sequence) motif rel_idx
  = (set_map (mirror (Z.of_nat (String.length sequence)))
       (contig_positions sequence motif rel_idx).2,
     set_map (mirror (Z.of_nat (String.length sequence)))
       (contig_positions sequence motif rel_idx).1).
Proof.
  intros Hdna. unfold contig_positions. cbn [fst snd].
  rewrite reverse_complement_involutive, length_reverse_complement by assumption.
  f_equal; apply set_eq; intros p;
    rewrite elem_of_map, elem_of_list_to_set, list_elem_of_fmap; split.
  - intros (start & -> & Hstart). eexists. split;
      [|apply elem_of_list_to_set, list_elem_of_fmap; eauto].
    unfold mirror. lia.
  - intros (q & -> & (start & -> & Hstart)%elem_of_list_to_set%list_elem_of_fmap).
    exists start. split; [unfold mirror; lia | assumption].
  - intros (start & -> & Hstart). eexists. split;
      [|apply elem_of_list_to_set, list_elem_of_fmap; eauto].
    unfold mirror. lia.
  - intros (q & -> & (start & -> & Hstart)%elem_of_list_to_set%list_elem_of_fmap).
    exists start. split; [unfold mirror; lia | assumption].
Qed.

Lemma contig_positions_reverse_complement_witness :
  contig_positions (reverse_complement "ACGAT") [Lit "C"; Lit "G"] 0
  = (set_map (mirror 5) (contig_positions "ACGAT" [Lit "C"; Lit "G"] 0).2,
     set_map (mirror 5) (contig_positions "ACGAT" [Lit "C"; Lit "G"] 0).1).
Proof.
  apply (contig_positions_reverse_complement "ACGAT").
  repeat constructor; discriminate.
Defined.

End Strands.

Section Case.

(** The text in lower case, as [str.lower] gives it. *)
Definition lower_text (text : string) : string :=
  string_of_list_ascii (lower <$> list_ascii_of_string text).

Lemma item_matches_lower (it : item) (c : ascii) :
  item_matches it (lower c) = item_matches it c.
Proof.
  assert (Hidem : lower (lower c) = lower c)
    by (destruct c as [[] [] [] [] [] [] [] []]; reflexivity).
  destruct it as [a|cs|]; simpl.
  - now rewrite Hidem.
  - now rewrite Hidem.
  - destruct c as [[] [] [] [] [] [] [] []]; reflexivity.
Qed.

Lemma match_here_lower (motif : list item) :
  forall s, match_here motif (lower <$> s) = match_here motif s.
Proof.
  induction motif as [|it motif IH]; intros [|c s]; simpl; try reflexivity.
  now rewrite item_matches_lower, IH.
Qed.

Lemma finditer_from_lower (motif : list item) (s : list ascii) :
  forall pos skip,
    finditer_from motif (lower <$> s) pos skip = finditer_from motif s pos skip.
Proof.
  induction s as [|c s IH]; intros pos skip; [reflexivity|].
  change (lower <$> c :: s) with (lower c :: (lower <$> s)).
  cbn [finditer_from]. destruct skip; [|apply IH].
  change (lower c :: (lower <$> s)) with (lower <$> c :: s).
  rewrite match_here_lower, !IH. reflexivity.
Qed.

Lemma finditer_lower (motif : list item) (text : string) :
  finditer motif (lower_text text) = finditer motif text.
Proof.
  unfold finditer, lower_text. rewrite list_ascii_of_string_of_list_ascii.
  apply finditer_from_lower.
Qed.

Lemma complement_lower (c : ascii) : complement (lower c) = lower (complement c).
Proof. destruct c as [[] [] [] [] [] [] [] []]; reflexivity. Qed.

Lemma reverse_complement_lower (text : string) :
  reverse_complement (lower_text text) = lower_text (reverse_complement text).
Proof.
  unfold reverse_complement, lower_text.
  rewrite !list_ascii_of_string_of_list_ascii.
  rewrite !rev_reverse, fmap_reverse, <- !list_fmap_compose. do 2 f_equal.
  apply list_fmap_ext. intros _ c _. apply complement_lower.
Qed.

Lemma length_lower_text (text : string) :
  String.length (lower_text text) = String.length text.
Proof.
  unfold lower_text.
  now rewrite <- length_list_ascii, list_ascii_of_string_of_list_ascii,
    length_fmap, length_list_ascii.
Qed.

Lemma contig_positions_lower (sequence : string) (motif : list item) (rel_idx : Z) :
  contig_positions (lower_text sequence) motif rel_idx
  = contig_positions sequence motif rel_idx.
Proof.
  unfold contig_positions.
  now rewrite reverse_complement_lower, !finditer_lower, length_lower_text.
Qed.

(** X15: the index does not depend on the case of the sequences: a
    reference written in lower case (soft-masked, for instance) gives the
    same dictionary as the reference itself. *)
Theorem build_reference_idx_case
    (records : list (string * string)) (motif : list item) (rel_idx : Z) :
  build_reference_idx ((fun record => (record.1, lower_text record.2)) <$> records)
    motif rel_idx
  = build_reference_idx records motif rel_idx.
Proof.
  unfold build_reference_idx. generalize (∅ : gmap string (gset Z * gset Z)).
  induction records as [|[name sequence] records IH]; intros positions; [reflexivity|].
  cbn [fmap list_fmap fold_left fst snd]. rewrite contig_positions_lower. apply IH.
Qed.

End Case.

Section Order.

Lemma build_lookup_unique (records : list (string * string)) (name sequence : string)
    (motif : list item) (rel_idx : Z) :
  NoDup records.*1 ->
  (name, sequence) ∈ records ->
  build_reference_idx records motif rel_idx !! name
  = Some (contig_positions sequence motif rel_idx).
Proof.
  intros Hnodup (pre & post & ->)%list_elem_of_split.
  apply build_lookup.
  rewrite fmap_app, fmap_cons in Hnodup.
  apply NoDup_app in Hnodup as (_ & _ & Hpost).
  now apply NoDup_cons in Hpost as [Hname _].
Qed.

Lemma build_lookup_absent (records : list (string * string)) (name : string)
    (motif : list item) (rel_idx : Z) :
  name ∉ records.*1 ->
  build_reference_idx records motif rel_idx !! name = None.
Proof.
  intros Hname. unfold build_reference_idx.
  now rewrite (fold_other motif rel_idx records name ∅ Hname).
Qed.

(** X16: contigs are indexed independently of one another: when the
    names are distinct, the dictionary does not depend on the order of the
    records. *)
Theorem build_reference_idx_order
    (records records' : list (string * string)) (motif : list item) (rel_idx : Z) :
  NoDup records.*1 ->
  records ≡ₚ records' ->
  build_reference_idx records' motif rel_idx
  = build_reference_idx records motif rel_idx.
Proof.
  intros Hnodup Hperm.
  assert (Hnodup' : NoDup records'.*1) by now rewrite <- Hperm.
  apply map_eq. intros name.
  destruct (decide (name ∈ records.*1)) as [Hin|Hout].
  - apply list_elem_of_fmap in Hin as ([n sequence] & -> & Hin). simpl.
    rewrite (build_lookup_unique records n sequence) by assumption.
    apply build_lookup_unique; [assumption | now rewrite <- Hperm].
  - rewrite (build_lookup_absent records) by assumption.
    apply build_lookup_absent. now rewrite <- Hperm.
Qed.

Lemma build_reference_idx_order_witness :
  build_reference_idx [("b"%string, "ACGT"%string); ("a"%string, "TTTT"%string)]
    [Lit "T"] 0
  = build_reference_idx [("a"%string, "TTTT"%string); ("b"%string, "ACGT"%string)]
    [Lit "T"] 0.
Proof.
  apply build_reference_idx_order.
  - simpl. apply NoDup_cons. split; [|apply NoDup_singleton].
    intros H%list_elem_of_singleton. discriminate H.
  - apply Permutation_swap.
Defined.

End Order.

Section Edges.

(** The scan of an empty motif reports every index of the text and the
    index past its end. *)
Lemma finditer_from_empty (s : list ascii) :
  forall pos, finditer_from [] s pos 0 = (fun i => pos + Z.of_nat i) <$> seq 0 (S (length s)).
Proof.
  induction s as [|c s IH]; intros pos.
  - simpl. now rewrite Z.add_0_r.
  - cbn [finditer_from match_here length Nat.sub]. rewrite IH.
    cbn [length]. rewrite <- (cons_seq (S (length s)) 0), fmap_cons. f_equal; [lia|].
    rewrite <- (fmap_add_seq 1 0), <- list_fmap_compose.
    apply list_fmap_ext. intros _ i _. simpl. lia.
Qed.

(** X17: the two edges of the match length.  A motif whose matches cover
    more characters than the contig has (a motif of more items than the
    contig has bases) is found nowhere, and the contig maps to two empty
    sets.  An empty motif is found at every index from 0 to [L] inclusive,
    so with relative index 0 the forward set holds [L], which is no index
    of the contig. *)
Theorem contig_positions_motif_length
    (sequence : string) (motif : list item) (rel_idx : Z) :
  ((String.length sequence < length motif)%nat ->
   contig_positions sequence motif rel_idx = (∅, ∅)) /\
  (motif = [] ->
   forall p, p ∈ (contig_positions sequence motif rel_idx).1 <->
             rel_idx <= p <= Z.of_nat (String.length sequence) + rel_idx).
Proof.
  split.
  - intros Hshort. unfold contig_positions.
    assert (Hnone : forall text, String.length text = String.length sequence ->
                                 finditer motif text = []).
    { intros text Htext. destruct (finditer motif text) as [|start l] eqn:Hf; [reflexivity|].
      assert (Hin : start ∈ finditer motif text) by (rewrite Hf; apply list_elem_of_here).
      apply finditer_within in Hin. lia. }
    rewrite (Hnone sequence eq_refl), (Hnone _ (length_reverse_complement sequence)).
    reflexivity.
  - intros -> p. unfold contig_positions, finditer. cbn [fst].
    rewrite finditer_from_empty, length_list_ascii.
    rewrite elem_of_list_to_set, list_elem_of_fmap. split.
    + intros (start & -> & (i & -> & Hi%elem_of_seq)%list_elem_of_fmap). lia.
    + intros Hp. exists (p - rel_idx). split; [lia|].
      apply list_elem_of_fmap. exists (Z.to_nat (p - rel_idx)). split; [lia|].
      apply elem_of_seq. lia.
Qed.

Lemma contig_positions_motif_length_witness :
  contig_positions "ACG" [Lit "A"; Lit "C"; Lit "G"; Lit "T"] 0 = (∅, ∅) /\
  3 ∈ (contig_positions "ACG" [] 0).1.
Proof.
  split.
  - apply (proj1 (contig_positions_motif_length "ACG" _ 0)). simpl. lia.
  - apply (proj2 (contig_positions_motif_length "ACG" [] 0) eq_refl). simpl. lia.
Defined.

End Edges.
End utils_more.
